(** * twap-from-file: order book with maximum price, and time-weighted
      average price

    A shallow embedding of [twap-from-file.cpp]: the class [OrderBook]
    (two [std::map]s, one from order id to price and one from price to the
    number of orders at that price) and the class [TWAP] (the incremental
    time-weighted average).

    - [int] is a 32-bit two's-complement integer, held in [Z]; the results of
      [+], [-], [++] and [--] are wrapped into the range of the type.  Signed
      overflow is undefined in C++: the theorems whose code path does
      arithmetic on [int] carry the hypotheses under which nothing
      overflows, so they do not depend on the wrap.
    - [double] is an interface, [DoubleOps], with the operations the program
      uses.  The double of the program is the instance [binary64], IEEE 754
      on [SpecFloat].  A second instance, [exact], is an idealisation: the
      rationals extended with one undefined value, to say what the same
      code would compute if no operation rounded.
    - [std::map<int, double>] is a [gmap]: only membership and the stored
      value are observed.  [std::map<double, int>] is a list of entries in
      strictly ascending key order, searched with [operator<] like the
      red-black tree of the library: its order is observed by [rbegin()].
    - The loop of [main] runs over the lines of the input file, each line
      given by what the extractions [line_stream >> x] read from it; what
      [cout] receives is the list of the doubles printed. *)

From Stdlib Require Import ZArith QArith Qcanon Lia Bool List Sorted.
From Stdlib Require Import SpecFloat.
From stdpp Require Import base option list fin_maps gmap strings.

Local Open Scope Z_scope.

(** ** The type [int] *)

Module Int.

Definition min_int : Z := - 2 ^ 31.
Definition max_int : Z := 2 ^ 31 - 1.

Definition in_range (z : Z) : Prop := min_int <= z <= max_int.

(** Reduction of an integer to the two's-complement range. *)
Definition wrap (z : Z) : Z := (z + 2 ^ 31) mod 2 ^ 32 - 2 ^ 31.

Definition add (a b : Z) : Z := wrap (a + b).
Definition sub (a b : Z) : Z := wrap (a - b).

End Int.

(** ** The type [double] *)

(** The operations on [double] that the program uses. *)
Class DoubleOps (D : Type) : Type := {
  d_nan : D;                  (* numeric_limits<double>::quiet_NaN() *)
  d_isnan : D -> bool;        (* isnan *)
  d_lt : D -> D -> bool;      (* operator<, the comparison of std::map<double, _> *)
  d_add : D -> D -> D;
  d_mul : D -> D -> D;
  d_div : D -> D -> D;
  d_of_int : Z -> D;          (* the conversion of an int to double *)
  d_to_int : D -> Z           (* the conversion of a double to int *)
}.

(** What the order book relies on: [operator<] is a strict weak order on the
    doubles that are not NaN, and the quiet NaN is a NaN. *)
Class DoubleLaws (D : Type) `{DoubleOps D} : Prop := {
  d_isnan_nan : d_isnan d_nan = true;
  d_lt_irrefl : forall x, d_lt x x = false;
  d_lt_trans : forall x y z, d_lt x y = true -> d_lt y z = true -> d_lt x z = true;
  d_lt_split : forall x y z,
      d_isnan y = false -> d_lt x z = true -> d_lt x y = true \/ d_lt y z = true
}.

(** Equivalence of keys in a [std::map] ordered by [operator<]: neither is
    less than the other.  On doubles that are not NaN this is [operator==]. *)
Definition d_equiv {D} `{DoubleOps D} (x y : D) : bool :=
  negb (d_lt x y) && negb (d_lt y x).

(** *** IEEE 754 binary64 *)

Module Binary64.

Definition prec : Z := 53.
Definition emax : Z := 1024.

Definition isnan (f : spec_float) : bool :=
  match f with S754_nan => true | _ => false end.

Definition of_int (z : Z) : spec_float := binary_normalize prec emax z 0 false.

(** Truncation toward zero; the conversion is undefined in C++ when the
    value does not fit an [int]. *)
Definition to_int (f : spec_float) : Z :=
  match f with
  | S754_finite s m e => Int.wrap (cond_Zopp s (Z.shiftl (Zpos m) e))
  | _ => 0
  end.

(** The number that a double stands for; none for NaN and the infinities. *)
Definition value (f : spec_float) : option Qc :=
  match f with
  | S754_zero _ => Some 0%Qc
  | S754_finite s m e => Some (Q2Qc (inject_Z (cond_Zopp s (Zpos m)) * 2 ^ e)%Q)
  | _ => None
  end.

End Binary64.

#[export] Instance binary64 : DoubleOps spec_float := {|
  d_nan := S754_nan;
  d_isnan := Binary64.isnan;
  d_lt := SFltb;
  d_add := SFadd Binary64.prec Binary64.emax;
  d_mul := SFmul Binary64.prec Binary64.emax;
  d_div := SFdiv Binary64.prec Binary64.emax;
  d_of_int := Binary64.of_int;
  d_to_int := Binary64.to_int
|}.

(** *** Exact arithmetic, an idealisation: the program rounds *)

Module Exact.

(** A rational, or the undefined value (NaN). *)
Definition t : Type := option Qc.

Definition isnan (x : t) : bool :=
  match x with None => true | Some _ => false end.

Definition lt (x y : t) : bool :=
  match x, y with
  | Some a, Some b => if Qclt_le_dec a b then true else false
  | _, _ => false
  end.

Definition lift2 (f : Qc -> Qc -> Qc) (x y : t) : t :=
  match x, y with
  | Some a, Some b => Some (f a b)
  | _, _ => None
  end.

(** A division by zero is undefined. *)
Definition div (x y : t) : t :=
  match x, y with
  | Some a, Some b => if Qc_eq_dec b 0%Qc then None else Some (a / b)%Qc
  | _, _ => None
  end.

Definition of_int (z : Z) : t := Some (Q2Qc (inject_Z z)).

Definition to_int (x : t) : Z :=
  match x with
  | Some q => Int.wrap (Z.quot (Qnum q) (Zpos (Qden q)))
  | None => 0
  end.

End Exact.

#[export] Instance exact : DoubleOps Exact.t := {|
  d_nan := None;
  d_isnan := Exact.isnan;
  d_lt := Exact.lt;
  d_add := Exact.lift2 Qcplus;
  d_mul := Exact.lift2 Qcmult;
  d_div := Exact.div;
  d_of_int := Exact.of_int;
  d_to_int := Exact.to_int
|}.

(** ** class TWAP *)

Section TWAP.

Context {D : Type} `{DoubleOps D}.

Record TWAP : Type := mkTWAP {
  last_price_ : D;
  last_time_ : Z;
  avg_price_ : D;
  total_time_ : Z
}.

(** The constructor [TWAP::TWAP]. *)
Definition TWAP_new : TWAP :=
  {| last_price_ := d_nan; last_time_ := 0; avg_price_ := d_nan; total_time_ := 0 |}.

(** [TWAP::next_price].  The early [return] of the source gives back the
    state as it was. *)
Definition next_price (time : Z) (price : D) (t : TWAP) : TWAP :=
  if negb (d_isnan (last_price_ t)) then
    let add_time := Int.sub time (last_time_ t) in
    if add_time <? 0 then t
    else if 0 <? total_time_ t then
      let new_total_time := d_of_int (Int.add (total_time_ t) add_time) in
      {| last_price_ := price;
         last_time_ := time;
         avg_price_ :=
           d_add (d_mul (d_div (avg_price_ t) new_total_time) (d_of_int (total_time_ t)))
                 (d_mul (d_div (last_price_ t) new_total_time) (d_of_int add_time));
         total_time_ := d_to_int new_total_time |}
    else
      {| last_price_ := price;
         last_time_ := time;
         avg_price_ := last_price_ t;
         total_time_ := add_time |}
  else
    {| last_price_ := price;
       last_time_ := time;
       avg_price_ := avg_price_ t;
       total_time_ := total_time_ t |}.

(** [TWAP::avg_price]. *)
Definition avg_price (t : TWAP) : D := avg_price_ t.

(** A sequence of calls of [next_price], the first of the list first. *)
Definition observe_all (obs : list (Z * D)) (t : TWAP) : TWAP :=
  fold_left (fun s o => next_price (fst o) (snd o) s) obs t.

End TWAP.

Arguments TWAP D : clear implicits.

(** The time-weighted mean, as the specification words it: every interval
    between two consecutive observations carries the price of the earlier
    one; the mean is the sum of price times length over the intervals whose
    starting price is defined, divided by the sum of their lengths. *)
Module Reference.

Definition Qc_of_Z (z : Z) : Qc := Q2Qc (inject_Z z).

(** The completed intervals: starting price and length. *)
Fixpoint intervals (obs : list (Z * Exact.t)) : list (Exact.t * Z) :=
  match obs with
  | [] => []
  | (t0, p0) :: rest =>
      match rest with
      | [] => []
      | (t1, _) :: _ => (p0, t1 - t0) :: intervals rest
      end
  end.

Fixpoint weighted_sum (ivs : list (Exact.t * Z)) : Qc :=
  match ivs with
  | [] => 0%Qc
  | (Some p, d) :: ivs' => (p * Qc_of_Z d + weighted_sum ivs')%Qc
  | (None, _) :: ivs' => weighted_sum ivs'
  end.

Fixpoint total_length (ivs : list (Exact.t * Z)) : Z :=
  match ivs with
  | [] => 0
  | (Some _, d) :: ivs' => d + total_length ivs'
  | (None, _) :: ivs' => total_length ivs'
  end.

Definition reference_twap (obs : list (Z * Exact.t)) : Qc :=
  (weighted_sum (intervals obs) / Qc_of_Z (total_length (intervals obs)))%Qc.

End Reference.

(** ** class OrderBook *)

Section OrderBook.

Context {D : Type} `{DoubleOps D}.

(** *** [std::map<double, int>]: entries in ascending key order *)

(** [find]: the first entry whose key is not less than [k] is the one
    looked for, unless [k] is less than its key. *)
Fixpoint pm_find (k : D) (m : list (D * Z)) : option Z :=
  match m with
  | [] => None
  | (k', v) :: m' =>
      if d_lt k' k then pm_find k m'
      else if d_lt k k' then None
      else Some v
  end.

(** [insert]: the entry is added at its place unless an equivalent key is
    there; the boolean is the [second] of the pair that [insert] returns. *)
Fixpoint pm_insert (k : D) (v : Z) (m : list (D * Z)) : list (D * Z) * bool :=
  match m with
  | [] => ([(k, v)], true)
  | (k', v') :: m' =>
      if d_lt k' k then
        let r := pm_insert k v m' in ((k', v') :: fst r, snd r)
      else if d_lt k k' then ((k, v) :: m, true)
      else (m, false)
  end.

(** Update through the iterator that [find] or [insert] returned for [k]
    ([it->second++], [it->second--]): the key stays, the count changes. *)
Fixpoint pm_update (f : Z -> Z) (k : D) (m : list (D * Z)) : list (D * Z) :=
  match m with
  | [] => []
  | (k', v') :: m' =>
      if d_lt k' k then (k', v') :: pm_update f k m'
      else if d_lt k k' then m
      else (k', f v') :: m'
  end.

(** [erase] of the iterator that [find] returned for [k]. *)
Fixpoint pm_erase (k : D) (m : list (D * Z)) : list (D * Z) :=
  match m with
  | [] => []
  | (k', v') :: m' =>
      if d_lt k' k then (k', v') :: pm_erase k m'
      else if d_lt k k' then m
      else m'
  end.

(** [rbegin()->first] of a map that is not empty. *)
Definition pm_rbegin_key (e : D * Z) (m : list (D * Z)) : D :=
  fst (List.last m e).

(** *** The order book *)

Record OrderBook : Type := mkOrderBook {
  order_price_map_ : gmap Z D;
  price_count_map_ : list (D * Z)
}.

(** The constructor [OrderBook::OrderBook]. *)
Definition OrderBook_new : OrderBook :=
  {| order_price_map_ := ∅; price_count_map_ := [] |}.

(** [OrderBook::insert_order]. *)
Definition insert_order (order_id : Z) (price : D) (ob : OrderBook) : OrderBook :=
  match order_price_map_ ob !! order_id with
  | Some _ => ob
  | None =>
      let price_pair := pm_insert price 1 (price_count_map_ ob) in
      {| order_price_map_ := <[order_id := price]> (order_price_map_ ob);
         price_count_map_ :=
           if snd price_pair then fst price_pair
           else pm_update (fun c => Int.add c 1) price (fst price_pair) |}
  end.

(** [OrderBook::erase_order].  The source dereferences the result of
    [find] on the price map without a test; where [find] gives [end()]
    the price map is left as it is here. *)
Definition erase_order (order_id : Z) (ob : OrderBook) : OrderBook :=
  match order_price_map_ ob !! order_id with
  | None => ob
  | Some price =>
      let decremented := pm_update (fun c => Int.sub c 1) price (price_count_map_ ob) in
      {| order_price_map_ := delete order_id (order_price_map_ ob);
         price_count_map_ :=
           match pm_find price decremented with
           | Some c => if c <=? 0 then pm_erase price decremented else decremented
           | None => decremented
           end |}
  end.

(** [OrderBook::max_price]. *)
Definition max_price (ob : OrderBook) : D :=
  match price_count_map_ ob with
  | [] => d_nan
  | e :: m => pm_rbegin_key e m
  end.

(** The events of the input file. *)
Inductive event : Type :=
| Insert (order_id : Z) (price : D)
| Erase (order_id : Z).

Definition apply_event (ob : OrderBook) (ev : event) : OrderBook :=
  match ev with
  | Insert order_id price => insert_order order_id price ob
  | Erase order_id => erase_order order_id ob
  end.

Definition apply_events (evs : list event) (ob : OrderBook) : OrderBook :=
  fold_left apply_event evs ob.

(** The prices that the events carry are numbers. *)
Definition event_price_ok (ev : event) : Prop :=
  match ev with
  | Insert _ price => d_isnan price = false
  | Erase _ => True
  end.

(** The sum of the counts of the price map. *)
Fixpoint count_sum (m : list (D * Z)) : Z :=
  match m with
  | [] => 0
  | (_, c) :: m' => c + count_sum m'
  end.

End OrderBook.

Arguments OrderBook D : clear implicits.
Arguments event D : clear implicits.

(** The scenarios of the specification are run on machine doubles. *)
Module Scenario.

Definition price (z : Z) : spec_float := Binary64.of_int z.

Definition undefined : spec_float := S754_nan.

Definition after (obs : list (Z * spec_float)) : TWAP spec_float :=
  observe_all obs TWAP_new.

(** The same observations, each price replaced by the number it stands
    for. *)
Definition values (obs : list (Z * spec_float)) : list (Z * Exact.t) :=
  map (fun o => (fst o, Binary64.value (snd o))) obs.

End Scenario.

(** ** Invariants *)

(** What [TWAP] holds after a run of calls, in exact arithmetic: [W] is the
    sum of price times length and [T] the sum of the lengths over the
    intervals, completed so far, whose starting price is defined. *)
Definition twap_inv (t : TWAP Exact.t) (W : Qc) (T : Z) : Prop :=
  total_time_ t = T /\ 0 <= T /\ (T = 0 -> W = 0%Qc) /\
  (0 < T -> avg_price_ t = Some (W / Reference.Qc_of_Z T)%Qc).

(** What one more interval, of starting price [p] and length [d], adds. *)
Definition gain_sum (p : Exact.t) (d : Z) : Qc :=
  match p with Some q => (q * Reference.Qc_of_Z d)%Qc | None => 0%Qc end.

Definition gain_len (p : Exact.t) (d : Z) : Z :=
  match p with Some _ => d | None => 0 end.

Section BookInvariant.
Context {D : Type} `{DoubleOps D}.

(** A double that is not NaN. *)
Definition number (x : D) : Prop := d_isnan x = false.

(** The search of a price map for a key equivalent to [q], entry by
    entry. *)
Fixpoint pm_scan (q : D) (m : list (D * Z)) : option Z :=
  match m with
  | [] => None
  | (k, v) :: m' => if d_equiv q k then Some v else pm_scan q m'
  end.

Definition pm_keys (m : list (D * Z)) : list D := map fst m.

(** The keys of a price map are numbers in strictly ascending order. *)
Definition pm_wf (m : list (D * Z)) : Prop :=
  StronglySorted (fun a b => d_lt a b = true) (pm_keys m) /\
  Forall number (pm_keys m).

(** Every key of [m] is greater than [q]. *)
Definition below (q : D) (m : list (D * Z)) : Prop :=
  Forall (fun k => d_lt q k = true) (pm_keys m).

(** The number of live orders whose price is equivalent to [q]. *)
Definition orders_at (q : D) (orders : gmap Z D) : nat :=
  size (filter (fun e => d_equiv (snd e) q = true) orders).

(** The entry that a price with [n] live orders has in the price map. *)
Definition count_opt (n : nat) : option Z :=
  match n with O => None | S _ => Some (Z.of_nat n) end.

(** The invariant of the order book. *)
Definition book_inv (ob : OrderBook D) : Prop :=
  pm_wf (price_count_map_ ob) /\
  (forall id p, order_price_map_ ob !! id = Some p -> number p) /\
  (forall q, number q ->
     pm_find q (price_count_map_ ob) = count_opt (orders_at q (order_price_map_ ob))) /\
  count_sum (price_count_map_ ob) = Z.of_nat (size (order_price_map_ ob)).
End BookInvariant.

(** ** The conversions between [int] and [double] *)

(** An [int] converted to [double] and back is the same [int]. *)
Class DoubleConv (D : Type) `{DoubleOps D} : Prop := {
  d_to_int_of_int : forall z, Int.in_range z -> d_to_int (d_of_int z) = z
}.

(** ** More on the time-weighted average *)

Section TWAPMore.

Context {D : Type} `{DoubleOps D}.

(** The time that a run of observations counts: the lengths of the
    intervals between consecutive observations whose starting price is not
    NaN. *)
Fixpoint counted_time (obs : list (Z * D)) : Z :=
  match obs with
  | [] => 0
  | (t0, p0) :: rest =>
      match rest with
      | [] => 0
      | (t1, _) :: _ => (if d_isnan p0 then 0 else t1 - t0) + counted_time rest
      end
  end.

(** The same observations with every time moved by [c]. *)
Definition shift_times (c : Z) (obs : list (Z * D)) : list (Z * D) :=
  map (fun o => (fst o + c, snd o)) obs.

(** Two states of [TWAP] that differ by a shift of the recorded time. *)
Definition shifted (c : Z) (t t' : TWAP D) : Prop :=
  last_price_ t' = last_price_ t /\ avg_price_ t' = avg_price_ t /\
  total_time_ t' = total_time_ t /\
  (d_isnan (last_price_ t) = false -> last_time_ t' = last_time_ t + c).

End TWAPMore.

(** ** The loop of [main] *)

Section Main.

Context {D : Type} `{DoubleOps D}.

(** A line of the input file: what each extraction of the loop reads from
    it, [None] where the extraction fails.  [read_price] is what the
    extraction of the price reads where the program makes it, that is
    after the operation [I]. *)
Record line : Type := mkLine {
  read_time : option Z;
  read_operation : option string;
  read_order_id : option Z;
  read_price : option D
}.

(** The objects of [main] and what has been written to [cout]. *)
Record run_state : Type := mkRunState {
  order_book : OrderBook D;
  twap : TWAP D;
  printed : list D
}.

(** The end of the loop body: the greatest price of the book goes to the
    average, and the average is printed unless it is NaN. *)
Definition feed_price (time : Z) (ob : OrderBook D) (st : run_state) : run_state :=
  let tw := next_price time (max_price ob) (twap st) in
  let twap_price := avg_price tw in
  {| order_book := ob;
     twap := tw;
     printed := if negb (d_isnan twap_price) then printed st ++ [twap_price]
                else printed st |}.

(** The body of the loop; every [continue] of the source gives back the
    state as it was. *)
Definition process_line (st : run_state) (l : line) : run_state :=
  match read_time l with
  | None => st
  | Some time =>
      match read_operation l with
      | None => st
      | Some operation =>
          match read_order_id l with
          | None => st
          | Some order_id =>
              if String.eqb operation "I" then
                match read_price l with
                | None => st
                | Some price =>
                    feed_price time
                      (insert_order order_id price (order_book st)) st
                end
              else if String.eqb operation "E" then
                feed_price time (erase_order order_id (order_book st)) st
              else feed_price time (order_book st) st
          end
      end
  end.

Definition main_start : run_state :=
  {| order_book := OrderBook_new; twap := TWAP_new; printed := [] |}.

Definition main_loop (lines : list line) : run_state :=
  fold_left process_line lines main_start.

(** A line on which the loop body runs to its end. *)
Definition complete (l : line) : bool :=
  match read_time l, read_operation l, read_order_id l with
  | Some _, Some operation, Some _ =>
      if String.eqb operation "I" then
        match read_price l with Some _ => true | None => false end
      else true
  | _, _, _ => false
  end.

(** The event that a line brings to the order book, if any. *)
Definition event_of_line (l : line) : option (event D) :=
  match read_time l, read_operation l, read_order_id l with
  | Some _, Some operation, Some order_id =>
      if String.eqb operation "I" then
        match read_price l with
        | Some price => Some (Insert order_id price)
        | None => None
        end
      else if String.eqb operation "E" then Some (Erase order_id)
      else None
  | _, _, _ => None
  end.

Fixpoint events_of_lines (lines : list line) : list (event D) :=
  match lines with
  | [] => []
  | l :: lines' =>
      match event_of_line l with
      | Some ev => ev :: events_of_lines lines'
      | None => events_of_lines lines'
      end
  end.

(** A line that inserts an order. *)
Definition inserts (l : line) : bool :=
  match event_of_line l with Some (Insert _ _) => true | _ => false end.

(** No price has been recorded yet but NaN, and there is no average. *)
Definition silent (st : run_state) : Prop :=
  d_isnan (last_price_ (twap st)) = true /\
  d_isnan (avg_price_ (twap st)) = true.

(** No order has been inserted yet. *)
Definition idle (st : run_state) : Prop :=
  order_book st = OrderBook_new /\ silent st /\ printed st = [].

End Main.

Arguments line D : clear implicits.
Arguments run_state D : clear implicits.

(** * Properties *)

(** ** [int] arithmetic that does not overflow *)

Module IntFacts.

Lemma wrap_in_range z : Int.in_range z -> Int.wrap z = z.
Proof.
  unfold Int.in_range, Int.wrap, Int.min_int, Int.max_int. intros Hz.
  rewrite Z.mod_small; lia.
Qed.

Lemma sub_diag a : Int.sub a a = 0.
Proof. unfold Int.sub. rewrite Z.sub_diag. reflexivity. Qed.

Lemma sub_exact a b : Int.in_range (a - b) -> Int.sub a b = a - b.
Proof. apply wrap_in_range. Qed.

Lemma add_exact a b : Int.in_range (a + b) -> Int.add a b = a + b.
Proof. apply wrap_in_range. Qed.

(** Where the difference fits an [int], the sign test of the program is the
    sign test of the difference. *)
Lemma sub_neg_iff a b : Int.in_range (a - b) -> (Int.sub a b < 0 <-> a - b < 0).
Proof. intros Hr. rewrite sub_exact by assumption. reflexivity. Qed.

End IntFacts.

(** ** The two instances of [double] obey the laws *)

Module Binary64Facts.

Lemma SFltb_compare x y : SFltb x y = true <-> SFcompare x y = Some Lt.
Proof.
  unfold SFltb. destruct (SFcompare x y) as [[]|]; split; congruence.
Qed.

Ltac cmp_cases :=
  repeat match goal with
  | |- context [Z.compare ?a ?b] =>
      let E := fresh in destruct (Z.compare_spec a b) as [E|E|E]
  | H : context [Z.compare ?a ?b] |- _ =>
      let E := fresh in destruct (Z.compare_spec a b) as [E|E|E]
  | |- context [Pos.compare_cont Eq ?a ?b] =>
      change (Pos.compare_cont Eq a b) with (Pos.compare a b)
  | H : context [Pos.compare_cont Eq ?a ?b] |- _ =>
      change (Pos.compare_cont Eq a b) with (Pos.compare a b) in H
  | |- context [Pos.compare ?a ?b] =>
      let E := fresh in destruct (Pos.compare_spec a b) as [E|E|E]
  | H : context [Pos.compare ?a ?b] |- _ =>
      let E := fresh in destruct (Pos.compare_spec a b) as [E|E|E]
  end.

(** Every shape and sign of the floats at hand, then every outcome of the
    comparisons of exponents and mantissas. *)
Ltac float_cases :=
  intros;
  repeat match goal with
  | x : spec_float |- _ => destruct x
  | b : bool |- _ => destruct b
  end;
  simpl in *; try discriminate; try reflexivity; try tauto;
  cmp_cases; simpl in *; subst;
  try discriminate; try reflexivity; try tauto; try lia.

Lemma compare_irrefl x : SFcompare x x <> Some Lt.
Proof. float_cases. Qed.

Lemma compare_trans x y z :
  SFcompare x y = Some Lt -> SFcompare y z = Some Lt -> SFcompare x z = Some Lt.
Proof. float_cases. Qed.

Lemma compare_split x y z :
  Binary64.isnan y = false -> SFcompare x z = Some Lt ->
  SFcompare x y = Some Lt \/ SFcompare y z = Some Lt.
Proof. float_cases. Qed.

End Binary64Facts.

#[export] Instance binary64_laws : DoubleLaws spec_float.
Proof.
  split; simpl.
  - reflexivity.
  - intros x. apply not_true_is_false. intros E.
    apply Binary64Facts.SFltb_compare in E.
    destruct (Binary64Facts.compare_irrefl x E).
  - intros x y z. rewrite !Binary64Facts.SFltb_compare.
    apply Binary64Facts.compare_trans.
  - intros x y z. rewrite !Binary64Facts.SFltb_compare.
    apply Binary64Facts.compare_split.
Qed.

Module ExactFacts.

Lemma lt_spec (a b : Qc) : Exact.lt (Some a) (Some b) = true <-> (a < b)%Qc.
Proof.
  simpl. destruct (Qclt_le_dec a b) as [Hlt|Hle]; split; intros Hx;
    try assumption; try reflexivity; try discriminate.
  destruct (Qcle_not_lt _ _ Hle Hx).
Qed.

Lemma lt_some x y : Exact.lt x y = true -> exists a b, x = Some a /\ y = Some b.
Proof. destruct x, y; simpl; try discriminate. eauto. Qed.

End ExactFacts.

#[export] Instance exact_laws : DoubleLaws Exact.t.
Proof.
  split.
  - reflexivity.
  - intros [a|]; [|reflexivity].
    apply not_true_is_false. intros E.
    apply ExactFacts.lt_spec in E. destruct (Qclt_not_eq _ _ E eq_refl).
  - intros x y z Hxy Hyz.
    destruct (ExactFacts.lt_some _ _ Hxy) as (a & b & -> & ->).
    destruct (ExactFacts.lt_some _ _ Hyz) as (b' & c & Hb & ->).
    injection Hb as <-.
    apply ExactFacts.lt_spec. apply ExactFacts.lt_spec in Hxy, Hyz.
    eapply Qclt_trans; eassumption.
  - intros x [b|] z Hnan Hxz; [|discriminate].
    destruct (ExactFacts.lt_some _ _ Hxz) as (a & c & -> & ->).
    apply ExactFacts.lt_spec in Hxz.
    destruct (Qclt_le_dec a b) as [Hab|Hba].
    + left. apply ExactFacts.lt_spec. assumption.
    + right. apply ExactFacts.lt_spec. eapply Qcle_lt_trans; eassumption.
Qed.

(** ** Properties of [TWAP::next_price] *)

Section TWAPFacts.

Context {D : Type} `{DoubleOps D}.

(** The three ways through [next_price]. *)

Lemma next_price_undefined_last time price (t : TWAP D) :
  d_isnan (last_price_ t) = true ->
  next_price time price t =
    {| last_price_ := price; last_time_ := time;
       avg_price_ := avg_price_ t; total_time_ := total_time_ t |}.
Proof. intros Hnan. unfold next_price. rewrite Hnan. reflexivity. Qed.

Lemma next_price_backward time price (t : TWAP D) :
  d_isnan (last_price_ t) = false ->
  Int.sub time (last_time_ t) < 0 ->
  next_price time price t = t.
Proof.
  intros Hnan Hback. unfold next_price. rewrite Hnan. simpl.
  apply Z.ltb_lt in Hback. rewrite Hback. reflexivity.
Qed.

Lemma next_price_first_interval time price (t : TWAP D) :
  d_isnan (last_price_ t) = false ->
  0 <= Int.sub time (last_time_ t) ->
  total_time_ t <= 0 ->
  next_price time price t =
    {| last_price_ := price; last_time_ := time;
       avg_price_ := last_price_ t;
       total_time_ := Int.sub time (last_time_ t) |}.
Proof.
  intros Hnan Hfwd Htot. unfold next_price. rewrite Hnan. simpl.
  destruct (Z.ltb_spec (Int.sub time (last_time_ t)) 0); [lia|].
  destruct (Z.ltb_spec 0 (total_time_ t)); [lia|]. reflexivity.
Qed.

Lemma next_price_blend time price (t : TWAP D) :
  d_isnan (last_price_ t) = false ->
  0 <= Int.sub time (last_time_ t) ->
  0 < total_time_ t ->
  next_price time price t =
    let add_time := Int.sub time (last_time_ t) in
    let new_total_time := d_of_int (Int.add (total_time_ t) add_time) in
    {| last_price_ := price; last_time_ := time;
       avg_price_ :=
         d_add (d_mul (d_div (avg_price_ t) new_total_time) (d_of_int (total_time_ t)))
               (d_mul (d_div (last_price_ t) new_total_time) (d_of_int add_time));
       total_time_ := d_to_int new_total_time |}.
Proof.
  intros Hnan Hfwd Htot. unfold next_price. rewrite Hnan. simpl.
  destruct (Z.ltb_spec (Int.sub time (last_time_ t)) 0); [lia|].
  destruct (Z.ltb_spec 0 (total_time_ t)); [|lia]. reflexivity.
Qed.

End TWAPFacts.

(** C1, as the code has it: a call of [next_price] whose time is before the
    recorded one leaves the whole state (average, total time, last price and
    last time) as it was, when the recorded last price is defined.  The
    sign test is the one of the program, on the [int] difference
    [time - last_time_]. *)
Theorem backward_sample_discarded {D : Type} `{DoubleOps D}
    (time : Z) (price : D) (t : TWAP D) :
  d_isnan (last_price_ t) = false ->
  Int.sub time (last_time_ t) < 0 ->
  next_price time price t = t.
Proof. apply next_price_backward. Qed.

Lemma backward_sample_discarded_witness :
  let t := Scenario.after [(0, Scenario.price 10); (5, Scenario.price 20)] in
  next_price 3 (Scenario.price 30) t = t.
Proof.
  intros t. apply (backward_sample_discarded 3 (Scenario.price 30) t).
  - reflexivity.
  - vm_compute. reflexivity.
Defined.

(** C1 as stated fails where the recorded last price is undefined: after
    [observe(0, 10)] and [observe(10, undefined)], the call
    [observe(5, 20)] goes back in time and yet replaces the last
    observation. *)
Lemma backward_sample_after_undefined_kept :
  let t := Scenario.after [(0, Scenario.price 10); (10, Scenario.undefined)] in
  5 - last_time_ t < 0 /\
  Int.sub 5 (last_time_ t) < 0 /\
  next_price 5 (Scenario.price 20) t <> t /\
  last_time_ (next_price 5 (Scenario.price 20) t) = 5 /\
  last_price_ (next_price 5 (Scenario.price 20) t) = Scenario.price 20.
Proof.
  vm_compute. repeat split; try reflexivity. intros E. discriminate E.
Qed.

(** C5: where the recorded last price is undefined, a call of [next_price]
    whose time is not before the recorded one leaves the average and the
    total time as they were and records its time and price; and
    [observe(0, 10)], [observe(10, undefined)], [observe(20, 20)] gives
    average 10 and total time 10 after the second call and after the
    third. *)
Theorem undefined_interval_has_no_weight :
  (forall (D : Type) (ops : DoubleOps D) (time : Z) (price : D) (t : TWAP D),
      d_isnan (last_price_ t) = true ->
      last_time_ t <= time ->
      let t' := next_price time price t in
      avg_price_ t' = avg_price_ t /\ total_time_ t' = total_time_ t /\
      last_price_ t' = price /\ last_time_ t' = time) /\
  (let t2 := Scenario.after [(0, Scenario.price 10); (10, Scenario.undefined)] in
   let t3 := next_price 20 (Scenario.price 20) t2 in
   avg_price t2 = Scenario.price 10 /\ total_time_ t2 = 10 /\
   avg_price t3 = Scenario.price 10 /\ total_time_ t3 = 10).
Proof.
  split.
  - intros D ops time price t Hnan _ t'. subst t'.
    rewrite next_price_undefined_last by assumption. simpl. auto.
  - vm_compute. auto.
Qed.

Lemma undefined_interval_has_no_weight_witness :
  let t := Scenario.after [(0, Scenario.price 10); (10, Scenario.undefined)] in
  let t' := next_price 20 (Scenario.price 20) t in
  avg_price_ t' = avg_price_ t /\ total_time_ t' = total_time_ t /\
  last_price_ t' = Scenario.price 20 /\ last_time_ t' = 20.
Proof.
  intros t.
  apply (proj1 undefined_interval_has_no_weight spec_float binary64 20
           (Scenario.price 20) t).
  - reflexivity.
  - vm_compute. discriminate.
Defined.

(** C8: the first call of [next_price] on a new [TWAP] records its time and
    price, leaves the average and the total time at their initial values,
    and [avg_price()] is still NaN after it. *)
Theorem first_observation_recorded {D : Type} `{DoubleLaws D}
    (time : Z) (price : D) :
  let t := next_price time price TWAP_new in
  last_price_ t = price /\ last_time_ t = time /\
  avg_price_ t = avg_price_ TWAP_new /\
  total_time_ t = total_time_ TWAP_new /\
  d_isnan (avg_price t) = true.
Proof.
  intros t. subst t.
  rewrite next_price_undefined_last by (simpl; apply d_isnan_nan).
  simpl. repeat split. unfold avg_price. simpl. apply d_isnan_nan.
Qed.

Lemma first_observation_recorded_witness :
  let t := next_price 7 (Scenario.price 10) TWAP_new in
  last_price_ t = Scenario.price 10 /\ last_time_ t = 7 /\
  avg_price_ t = S754_nan /\ total_time_ t = 0 /\
  d_isnan (avg_price t) = true.
Proof.
  exact (first_observation_recorded (D := spec_float) 7 (Scenario.price 10)).
Defined.

(** C9: where the recorded last price is undefined, a call of [next_price]
    with a time before the recorded one is not discarded: it records its
    time and price, and leaves the average and the total time as they
    were. *)
Theorem backward_sample_after_undefined_recorded {D : Type} `{DoubleOps D}
    (time : Z) (price : D) (t : TWAP D) :
  d_isnan (last_price_ t) = true ->
  time < last_time_ t ->
  let t' := next_price time price t in
  last_price_ t' = price /\ last_time_ t' = time /\
  avg_price_ t' = avg_price_ t /\ total_time_ t' = total_time_ t /\
  t' <> t.
Proof.
  intros Hnan Hback t'. subst t'.
  rewrite next_price_undefined_last by assumption. simpl.
  repeat split. intros E. apply (f_equal last_time_) in E. simpl in E. lia.
Qed.

Lemma backward_sample_after_undefined_recorded_witness :
  let t := Scenario.after [(0, Scenario.price 10); (10, Scenario.undefined)] in
  let t' := next_price 5 (Scenario.price 20) t in
  last_price_ t' = Scenario.price 20 /\ last_time_ t' = 5 /\
  avg_price_ t' = avg_price_ t /\ total_time_ t' = total_time_ t /\
  t' <> t.
Proof.
  intros t.
  apply (backward_sample_after_undefined_recorded 5 (Scenario.price 20) t).
  - reflexivity.
  - vm_compute. reflexivity.
Defined.

(** C10: where the recorded last price is defined and the total time is 0,
    a call of [next_price] at the recorded time sets the average to the
    recorded price and leaves the total time at 0, so that [avg_price()] is
    no longer NaN. *)
Theorem zero_length_interval_sets_average {D : Type} `{DoubleOps D}
    (time : Z) (price : D) (t : TWAP D) :
  d_isnan (last_price_ t) = false ->
  total_time_ t = 0 ->
  time = last_time_ t ->
  let t' := next_price time price t in
  avg_price_ t' = last_price_ t /\ total_time_ t' = 0 /\
  d_isnan (avg_price t') = false.
Proof.
  intros Hnan Htot -> t'. subst t'.
  rewrite next_price_first_interval;
    rewrite ?IntFacts.sub_diag; try assumption; try lia.
  unfold avg_price. simpl. auto.
Qed.

Lemma zero_length_interval_sets_average_witness :
  let t := Scenario.after [(4, Scenario.price 10)] in
  let t' := next_price 4 (Scenario.price 20) t in
  avg_price_ t' = Scenario.price 10 /\ total_time_ t' = 0 /\
  d_isnan (avg_price t') = false.
Proof.
  intros t.
  apply (zero_length_interval_sets_average 4 (Scenario.price 20) t);
    reflexivity.
Defined.

(** ** The blend against the time-weighted mean, in exact arithmetic *)

Module BlendFacts.

Import Reference.

Lemma Qc_of_Z_plus a b : Qc_of_Z (a + b) = (Qc_of_Z a + Qc_of_Z b)%Qc.
Proof.
  unfold Qc_of_Z. apply Qc_is_canon. simpl.
  rewrite !Qred_correct. rewrite inject_Z_plus. reflexivity.
Qed.

Lemma Qc_of_Z_0 : Qc_of_Z 0 = 0%Qc.
Proof. apply Qc_is_canon. reflexivity. Qed.

Lemma Qc_of_Z_nonzero z : z <> 0 -> Qc_of_Z z <> 0%Qc.
Proof.
  intros Hz E. apply (f_equal this) in E. unfold Qc_of_Z in E. simpl in E.
  assert (Hq : (inject_Z z == 0)%Q).
  { rewrite <- (Qred_correct (inject_Z z)). rewrite E. reflexivity. }
  unfold Qeq in Hq. simpl in Hq. lia.
Qed.

(** The operations of the exact instance on defined values. *)

Lemma exact_of_int z : d_of_int z = Some (Qc_of_Z z) :> Exact.t.
Proof. reflexivity. Qed.

Lemma exact_div a b :
  b <> 0%Qc -> d_div (Some a) (Some b) = Some (a / b)%Qc :> Exact.t.
Proof.
  intros Hb. simpl. destruct (Qc_eq_dec b 0%Qc); [contradiction|reflexivity].
Qed.

Lemma exact_mul a b : d_mul (Some a) (Some b) = Some (a * b)%Qc :> Exact.t.
Proof. reflexivity. Qed.

Lemma exact_add a b : d_add (Some a) (Some b) = Some (a + b)%Qc :> Exact.t.
Proof. reflexivity. Qed.

(** An [int] survives the conversion to [double] and back. *)
Lemma exact_to_int z :
  Int.in_range z -> d_to_int (Some (Qc_of_Z z) : Exact.t) = z.
Proof.
  intros Hz. simpl. rewrite Qred_identity by apply Z.gcd_1_r. simpl.
  rewrite Z.quot_1_r. apply IntFacts.wrap_in_range; assumption.
Qed.

(** The update of the average, on the mean [W / T] of the intervals so far
    and one more interval of price [p] and length [d]. *)
Lemma blend (W p : Qc) (T d : Z) :
  0 < T -> 0 <= d ->
  (W / Qc_of_Z T / Qc_of_Z (T + d) * Qc_of_Z T + p / Qc_of_Z (T + d) * Qc_of_Z d
   = (W + p * Qc_of_Z d) / Qc_of_Z (T + d))%Qc.
Proof.
  intros HT Hd. rewrite Qc_of_Z_plus.
  assert (H1 : Qc_of_Z T <> 0%Qc) by (apply Qc_of_Z_nonzero; lia).
  assert (H2 : (Qc_of_Z T + Qc_of_Z d)%Qc <> 0%Qc).
  { rewrite <- Qc_of_Z_plus. apply Qc_of_Z_nonzero; lia. }
  field. auto.
Qed.

Ltac unfold_range := unfold Int.in_range, Int.min_int, Int.max_int in *.

Ltac project :=
  unfold twap_inv;
  cbn [total_time_ avg_price_ last_time_ last_price_ gain_sum gain_len].

(** One call keeps the invariant and adds the interval it closes. *)
Lemma step time price t W T :
  twap_inv t W T ->
  last_time_ t <= time ->
  T + (time - last_time_ t) <= Int.max_int ->
  let d := time - last_time_ t in
  let t' := next_price time price t in
  twap_inv t' (W + gain_sum (last_price_ t) d) (T + gain_len (last_price_ t) d) /\
  last_time_ t' = time /\ last_price_ t' = price.
Proof.
  intros (Htot & HT0 & HW0 & Havg) Hle Hfit d t'. subst t'.
  assert (Hd0 : 0 <= d) by (subst d; lia).
  assert (Hd : Int.sub time (last_time_ t) = d).
  { apply IntFacts.sub_exact. unfold_range. subst d. lia. }
  destruct (last_price_ t) as [p|] eqn:Hp.
  - destruct (Z.ltb_spec 0 T) as [Hpos|Hzero].
    + rewrite next_price_blend;
        rewrite ?Hp, ?Hd, ?Htot; try reflexivity; try lia.
      cbn zeta.
      assert (Hsum : Int.add T d = T + d).
      { apply IntFacts.add_exact. unfold_range. subst d. lia. }
      rewrite Hsum, Havg, !exact_of_int by assumption.
      rewrite !exact_div by (apply Qc_of_Z_nonzero; lia).
      rewrite !exact_mul, exact_add, blend by lia.
      rewrite exact_to_int by (unfold_range; subst d; lia).
      project. repeat split; try lia.
    + assert (HT : T = 0) by lia.
      rewrite next_price_first_interval;
        rewrite ?Hp, ?Hd; try reflexivity; try lia.
      project. rewrite (HW0 HT), HT, Z.add_0_l.
      repeat split; try lia.
      * intros Hz. rewrite Hz, Qc_of_Z_0. ring.
      * intros Hz. f_equal.
        assert (Qc_of_Z d <> 0%Qc) by (apply Qc_of_Z_nonzero; lia).
        field. assumption.
  - rewrite next_price_undefined_last by (rewrite Hp; reflexivity).
    project. rewrite Z.add_0_r, Qcplus_0_r. auto.
Qed.

Lemma twap_inv_eq t W W' T T' :
  W = W' -> T = T' -> twap_inv t W T -> twap_inv t W' T'.
Proof. intros -> ->. auto. Qed.

Lemma intervals_cons t0 p0 t1 p1 rest :
  intervals ((t0, p0) :: (t1, p1) :: rest)
  = (p0, t1 - t0) :: intervals ((t1, p1) :: rest).
Proof. reflexivity. Qed.

Lemma weighted_sum_cons p d ivs :
  weighted_sum ((p, d) :: ivs) = (gain_sum p d + weighted_sum ivs)%Qc.
Proof. destruct p; simpl; [reflexivity|]. ring. Qed.

Lemma total_length_cons p d ivs :
  total_length ((p, d) :: ivs) = gain_len p d + total_length ivs.
Proof. destruct p; reflexivity. Qed.

Lemma gain_len_bounds p d : 0 <= d -> 0 <= gain_len p d <= d.
Proof. destruct p; simpl; lia. Qed.

(** A run of calls from a state whose last observation is known; [b] is a
    time from which the total time so far has been counted. *)
Lemma run rest : forall t W T b,
  twap_inv t W T ->
  Sorted Z.le (last_time_ t :: map fst rest) ->
  T <= last_time_ t - b ->
  Forall (fun o => fst o - b <= Int.max_int) rest ->
  twap_inv (observe_all rest t)
    (W + weighted_sum (intervals ((last_time_ t, last_price_ t) :: rest)))
    (T + total_length (intervals ((last_time_ t, last_price_ t) :: rest))).
Proof.
  induction rest as [|[t1 p1] rest IH]; intros t W T b HInv Hsorted HT Hspan.
  - simpl. apply (twap_inv_eq t W _ T _); [ring|lia|assumption].
  - apply Sorted_inv in Hsorted as [Hsorted Hhd].
    apply HdRel_inv in Hhd. cbn [map fst] in Hsorted, Hhd.
    apply Forall_cons_iff in Hspan as [Hfit Hspan]. cbn [fst] in Hfit.
    destruct (step t1 p1 t W T HInv Hhd ltac:(lia)) as (HInv' & Htime & Hprice).
    pose proof (gain_len_bounds (last_price_ t) (t1 - last_time_ t) ltac:(lia)).
    specialize (IH (next_price t1 p1 t) _ _ b HInv').
    rewrite Htime, Hprice in IH.
    specialize (IH Hsorted ltac:(lia) Hspan).
    change (observe_all ((t1, p1) :: rest) t)
      with (observe_all rest (next_price t1 p1 t)).
    rewrite intervals_cons, weighted_sum_cons, total_length_cons.
    eapply twap_inv_eq; [| |exact IH]; [ring|lia].
Qed.

Lemma run_from_new (obs : list (Z * Exact.t)) :
  Sorted Z.le (map fst obs) ->
  (forall a b, In a obs -> In b obs -> fst b - fst a <= Int.max_int) ->
  let t := observe_all obs TWAP_new in
  total_time_ t = total_length (intervals obs) /\
  (0 < total_time_ t -> avg_price t = Some (reference_twap obs)).
Proof.
  destruct obs as [|[t0 p0] rest]; intros Hsorted Hspan t; subst t.
  - simpl. split; [reflexivity|lia].
  - change (observe_all ((t0, p0) :: rest) TWAP_new)
      with (observe_all rest (next_price t0 p0 TWAP_new)).
    rewrite next_price_undefined_last by reflexivity.
    set (s := {| last_price_ := p0; last_time_ := t0;
                 avg_price_ := avg_price_ TWAP_new;
                 total_time_ := total_time_ TWAP_new |}).
    assert (HInv : twap_inv s 0%Qc 0).
    { unfold twap_inv. simpl. repeat split; try lia. }
    pose proof (run rest s 0%Qc 0 t0 HInv Hsorted ltac:(simpl; lia)) as Hrun.
    cbn [last_time_ last_price_ s] in Hrun.
    destruct Hrun as (Htot & _ & _ & Havg).
    { apply List.Forall_forall. intros o Ho.
      apply (Hspan (t0, p0) o); simpl; auto. }
    rewrite Z.add_0_l in Htot, Havg. split; [exact Htot|].
    intros Hpos. unfold avg_price. rewrite Htot in Hpos. rewrite (Havg Hpos).
    unfold reference_twap. f_equal. f_equal. ring.
Qed.

End BlendFacts.

(** The blend without rounding.  In exact arithmetic, which is not the
    arithmetic of the program, for every run of calls of [next_price] on a
    new [TWAP] whose times do not decrease (and lie no further apart than
    the greatest [int]), the total time is the sum of the lengths of the
    intervals whose starting price is defined, and once it is positive the
    average is the reference time-weighted mean; the calls
    [observe(0, 10)], [observe(10, 20)], [observe(30, 30)] give 10 and then
    50/3. *)
Theorem blend_is_weighted_mean_exact :
  (forall obs : list (Z * Exact.t),
      Sorted Z.le (map fst obs) ->
      (forall a b, In a obs -> In b obs -> fst b - fst a <= Int.max_int) ->
      let t := observe_all obs TWAP_new in
      total_time_ t = Reference.total_length (Reference.intervals obs) /\
      (0 < total_time_ t -> avg_price t = Some (Reference.reference_twap obs))) /\
  (let obs2 := Scenario.values [(0, Scenario.price 10); (10, Scenario.price 20)] in
   let obs3 := obs2 ++ Scenario.values [(30, Scenario.price 30)] in
   avg_price (observe_all obs2 TWAP_new) = Some (Q2Qc 10) /\
   total_time_ (observe_all obs2 TWAP_new) = 10 /\
   avg_price (observe_all obs3 TWAP_new) = Some (Q2Qc (50 # 3)) /\
   total_time_ (observe_all obs3 TWAP_new) = 30).
Proof.
  split; [exact BlendFacts.run_from_new|].
  repeat split; vm_compute; try reflexivity; f_equal; apply Qc_is_canon; reflexivity.
Qed.

Lemma blend_is_weighted_mean_exact_witness :
  let obs := Scenario.values
    [(0, Scenario.price 10); (10, Scenario.price 20); (30, Scenario.price 30)] in
  let t := observe_all obs TWAP_new in
  total_time_ t = Reference.total_length (Reference.intervals obs) /\
  (0 < total_time_ t -> avg_price t = Some (Reference.reference_twap obs)).
Proof.
  intros obs. apply (proj1 blend_is_weighted_mean_exact obs).
  - repeat constructor; vm_compute; discriminate.
  - intros a b Ha Hb. simpl in Ha, Hb.
    repeat match goal with H : _ \/ _ |- _ => destruct H end;
      subst; try contradiction; vm_compute; discriminate.
Defined.


(** ** The order of the doubles that are numbers *)

Section Order.
Context {D : Type} `{DoubleLaws D}.

Lemma equiv_refl (x : D) : d_equiv x x = true.
Proof. unfold d_equiv. rewrite d_lt_irrefl. reflexivity. Qed.

Lemma equiv_sym (x y : D) : d_equiv x y = d_equiv y x.
Proof. unfold d_equiv. apply andb_comm. Qed.

Lemma equiv_true (x y : D) :
  d_equiv x y = true <-> d_lt x y = false /\ d_lt y x = false.
Proof.
  unfold d_equiv. rewrite andb_true_iff, !negb_true_iff. reflexivity.
Qed.

Lemma lt_not_equiv (x y : D) : d_lt x y = true -> d_equiv x y = false.
Proof. intros Hlt. unfold d_equiv. rewrite Hlt. reflexivity. Qed.

Lemma lt_asym (x y : D) : d_lt x y = true -> d_lt y x = false.
Proof.
  intros Hxy. apply not_true_is_false. intros Hyx.
  pose proof (d_lt_trans _ _ _ Hxy Hyx) as Hxx.
  rewrite d_lt_irrefl in Hxx. discriminate.
Qed.

Lemma lt_equiv_l (x y z : D) :
  number y -> d_equiv x y = true -> d_lt x z = true -> d_lt y z = true.
Proof.
  intros Hy Heq Hxz. apply equiv_true in Heq as [Hxy _].
  destruct (d_lt_split x y z Hy Hxz) as [E|E]; [congruence|assumption].
Qed.

Lemma lt_equiv_r (x y z : D) :
  number y -> d_equiv x y = true -> d_lt z x = true -> d_lt z y = true.
Proof.
  intros Hy Heq Hzx. apply equiv_true in Heq as [_ Hyx].
  destruct (d_lt_split z y x Hy Hzx) as [E|E]; [assumption|congruence].
Qed.

Lemma equiv_trans (x y z : D) :
  number y -> d_equiv x y = true -> d_equiv y z = true -> d_equiv x z = true.
Proof.
  intros Hy Hxy Hyz. apply equiv_true in Hxy as [Hxy Hyx], Hyz as [Hyz Hzy].
  apply equiv_true. split; apply not_true_is_false; intros Hlt.
  - destruct (d_lt_split x y z Hy Hlt); congruence.
  - destruct (d_lt_split z y x Hy Hlt); congruence.
Qed.

(** Equivalent numbers are equivalent to the same doubles. *)
Lemma equiv_equiv (x y z : D) :
  number x -> number y -> d_equiv x y = true -> d_equiv z x = d_equiv z y.
Proof.
  intros Hx Hy Hxy.
  destruct (d_equiv z x) eqn:Hzx, (d_equiv z y) eqn:Hzy; try reflexivity.
  - rewrite (equiv_trans z x y Hx Hzx Hxy) in Hzy. discriminate.
  - rewrite equiv_sym in Hxy.
    rewrite (equiv_trans z y x Hy Hzy Hxy) in Hzx. discriminate.
Qed.

End Order.

(** ** The price map *)

Section PriceMap.
Context {D : Type} `{DoubleLaws D}.

Implicit Types (m : list (D * Z)) (k q : D) (v c : Z).

Lemma pm_wf_nil : pm_wf (D := D) [].
Proof. split; constructor. Qed.

Lemma pm_wf_cons k v m :
  pm_wf ((k, v) :: m) <-> number k /\ below k m /\ pm_wf m.
Proof.
  unfold pm_wf, below. cbn [pm_keys map fst]. split.
  - intros [Hs Hn]. apply StronglySorted_inv in Hs as [Hs Hk].
    apply Forall_cons_iff in Hn as [Hk0 Hn]. auto.
  - intros (Hk0 & Hk & Hs & Hn). split; constructor; assumption.
Qed.

Lemma below_trans q k m :
  d_lt q k = true -> below k m -> below q m.
Proof.
  unfold below. intros Hqk. apply List.Forall_impl. intros k' Hk'.
  eapply d_lt_trans; eassumption.
Qed.

Lemma below_equiv q k m :
  number q -> d_equiv k q = true -> below k m -> below q m.
Proof.
  unfold below. intros Hq Hkq. apply List.Forall_impl. intros k' Hk'.
  eapply lt_equiv_l; eassumption.
Qed.

Lemma below_cons q k v m :
  below q ((k, v) :: m) <-> d_lt q k = true /\ below q m.
Proof. unfold below. cbn [pm_keys map fst]. apply Forall_cons_iff. Qed.

Lemma scan_below q m : below q m -> pm_scan q m = None.
Proof.
  induction m as [|[k v] m IH]; [reflexivity|].
  intros [Hqk Hm]%below_cons. cbn [pm_scan].
  rewrite (lt_not_equiv _ _ Hqk). auto.
Qed.

(** On a price map in order, [find] is the search for an equivalent key. *)
Lemma find_scan q m : pm_wf m -> pm_find q m = pm_scan q m.
Proof.
  induction m as [|[k v] m IH]; [reflexivity|].
  intros (Hk & Hbelow & Hwf)%pm_wf_cons. cbn [pm_find pm_scan].
  unfold d_equiv.
  destruct (d_lt k q) eqn:Hkq.
  - rewrite andb_false_r. auto.
  - destruct (d_lt q k) eqn:Hqk; cbn [negb andb]; [|reflexivity].
    symmetry. apply scan_below. eapply below_trans; eassumption.
Qed.

(** A number equivalent to a key is not equivalent to a greater key. *)
Lemma equiv_via q k k' :
  number q -> d_equiv q k = true -> d_lt k k' = true -> d_equiv q k' = false.
Proof.
  intros Hq Hqk Hlt. apply not_true_is_false. intros Hqk'.
  rewrite equiv_sym in Hqk.
  pose proof (equiv_trans k q k' Hq Hqk Hqk') as E.
  rewrite (lt_not_equiv _ _ Hlt) in E. discriminate.
Qed.

Lemma insert_keys k v m :
  Forall (fun k' => k' = k \/ In k' (pm_keys m)) (pm_keys (fst (pm_insert k v m))).
Proof.
  induction m as [|[k' v'] m IH]; cbn [pm_insert].
  - repeat constructor.
  - destruct (d_lt k' k); [|destruct (d_lt k k')]; cbn [fst pm_keys map].
    + constructor; [right; left; reflexivity|].
      eapply List.Forall_impl; [|exact IH]. cbn. tauto.
    + constructor; [left; reflexivity|].
      apply List.Forall_forall. intros x Hx. right. exact Hx.
    + apply List.Forall_forall. intros x Hx. right. exact Hx.
Qed.

Lemma insert_below q k v m :
  d_lt q k = true -> below q m -> below q (fst (pm_insert k v m)).
Proof.
  intros Hqk Hm. unfold below in *.
  pose proof (insert_keys k v m) as Hkeys.
  rewrite List.Forall_forall in *. intros x Hx.
  destruct (Hkeys x Hx) as [->|Hin]; auto.
Qed.

Lemma insert_new k v m :
  pm_wf m -> number k -> snd (pm_insert k v m) = true ->
  pm_wf (fst (pm_insert k v m)) /\
  pm_scan k m = None /\
  (forall q, number q ->
     pm_scan q (fst (pm_insert k v m))
     = if d_equiv q k then Some v else pm_scan q m) /\
  count_sum (fst (pm_insert k v m)) = count_sum m + v.
Proof.
  intros Hwf Hk. induction m as [|[k' v'] m IH]; cbn [pm_insert].
  - intros _. cbn [fst]. repeat split.
    + repeat constructor.
    + repeat constructor. exact Hk.
    + cbn. lia.
  - apply pm_wf_cons in Hwf as (Hk' & Hbelow & Hwf).
    destruct (d_lt k' k) eqn:Hlt; [|destruct (d_lt k k') eqn:Hgt];
      cbn [fst snd]; intros Hins.
    + destruct (IH Hwf Hins) as (Hwf' & Hnone & Hscan & Hsum).
      split; [|split; [|split]].
      * apply pm_wf_cons. split; [assumption|]. split; [|assumption].
        apply insert_below; assumption.
      * cbn [pm_scan]. rewrite equiv_sym, (lt_not_equiv _ _ Hlt). assumption.
      * intros q Hq. cbn [pm_scan]. rewrite (Hscan q Hq).
        destruct (d_equiv q k') eqn:Hqk'; [|reflexivity].
        rewrite (equiv_via q k' k Hq Hqk' Hlt). reflexivity.
      * cbn [count_sum] in *. lia.
    + assert (Hkm : below k ((k', v') :: m)).
      { apply below_cons. split; [assumption|].
        eapply below_trans; eassumption. }
      split; [|split; [|split]].
      * apply pm_wf_cons. split; [assumption|]. split; [assumption|].
        apply pm_wf_cons. auto.
      * apply scan_below. assumption.
      * intros q Hq. reflexivity.
      * cbn [count_sum]. lia.
    + discriminate.
Qed.

Lemma insert_old k v m :
  snd (pm_insert k v m) = false ->
  fst (pm_insert k v m) = m /\ exists c, pm_find k m = Some c.
Proof.
  induction m as [|[k' v'] m IH]; cbn [pm_insert pm_find].
  - discriminate.
  - destruct (d_lt k' k); [|destruct (d_lt k k')]; cbn [fst snd]; intros Hins.
    + destruct (IH Hins) as [E Hc]. rewrite E. auto.
    + discriminate.
    + eauto.
Qed.

Lemma update_keys f k m : pm_keys (pm_update f k m) = pm_keys m.
Proof.
  unfold pm_keys.
  induction m as [|[k' v'] m IH]; [reflexivity|]. cbn [pm_update].
  destruct (d_lt k' k); [|destruct (d_lt k k')]; cbn [map fst];
    rewrite ?IH; reflexivity.
Qed.

Lemma update_wf f k m : pm_wf m -> pm_wf (pm_update f k m).
Proof. unfold pm_wf. rewrite update_keys. auto. Qed.

Lemma update_scan f k m q :
  pm_wf m -> number k -> number q ->
  pm_scan q (pm_update f k m)
  = if d_equiv q k then f <$> pm_scan q m else pm_scan q m.
Proof.
  intros Hwf Hk Hq. induction m as [|[k' v'] m IH].
  - cbn. destruct (d_equiv q k); reflexivity.
  - apply pm_wf_cons in Hwf as (Hk' & Hbelow & Hwf). cbn [pm_update].
    destruct (d_lt k' k) eqn:Hlt; [|destruct (d_lt k k') eqn:Hgt].
    + cbn [pm_scan]. rewrite (IH Hwf).
      destruct (d_equiv q k') eqn:Hqk'; [|reflexivity].
      rewrite (equiv_via q k' k Hq Hqk' Hlt). reflexivity.
    + destruct (d_equiv q k) eqn:Hqk; [|reflexivity].
      rewrite scan_below; [reflexivity|].
      apply (below_equiv q k); [assumption|rewrite equiv_sym; assumption|].
      apply below_cons. split; [assumption|].
      eapply below_trans; eassumption.
    + assert (Hkk' : d_equiv k k' = true) by (apply equiv_true; auto).
      cbn [pm_scan]. rewrite (equiv_equiv k k' q Hk Hk' Hkk').
      destruct (d_equiv q k'); reflexivity.
Qed.

Lemma update_sum f k m c :
  pm_find k m = Some c ->
  count_sum (pm_update f k m) = count_sum m - c + f c.
Proof.
  induction m as [|[k' v'] m IH]; cbn [pm_find pm_update]; [discriminate|].
  destruct (d_lt k' k); [|destruct (d_lt k k')]; intros Hc.
  - cbn [count_sum]. rewrite (IH Hc). lia.
  - discriminate.
  - injection Hc as ->. cbn [count_sum]. lia.
Qed.

Lemma erase_keys_below q k m : below q m -> below q (pm_erase k m).
Proof.
  induction m as [|[k' v'] m IH]; [auto|]. cbn [pm_erase].
  intros [Hqk' Hm]%below_cons.
  destruct (d_lt k' k); [|destruct (d_lt k k')].
  - apply below_cons. auto.
  - apply below_cons. auto.
  - assumption.
Qed.

Lemma erase_wf k m : pm_wf m -> pm_wf (pm_erase k m).
Proof.
  induction m as [|[k' v'] m IH]; [auto|]. cbn [pm_erase].
  intros Hall. pose proof Hall as (Hk' & Hbelow & Hwf)%pm_wf_cons.
  destruct (d_lt k' k); [|destruct (d_lt k k')]; try assumption.
  apply pm_wf_cons. split; [assumption|]. split; [|auto].
  apply erase_keys_below. assumption.
Qed.

Lemma erase_scan k m q :
  pm_wf m -> number k -> number q ->
  pm_scan q (pm_erase k m) = if d_equiv q k then None else pm_scan q m.
Proof.
  intros Hwf Hk Hq. induction m as [|[k' v'] m IH].
  - cbn. destruct (d_equiv q k); reflexivity.
  - apply pm_wf_cons in Hwf as (Hk' & Hbelow & Hwf). cbn [pm_erase].
    destruct (d_lt k' k) eqn:Hlt; [|destruct (d_lt k k') eqn:Hgt].
    + cbn [pm_scan]. rewrite (IH Hwf).
      destruct (d_equiv q k') eqn:Hqk'; [|reflexivity].
      rewrite (equiv_via q k' k Hq Hqk' Hlt). reflexivity.
    + destruct (d_equiv q k) eqn:Hqk; [|reflexivity].
      apply scan_below.
      apply (below_equiv q k); [assumption|rewrite equiv_sym; assumption|].
      apply below_cons. split; [assumption|].
      eapply below_trans; eassumption.
    + assert (Hkk' : d_equiv k k' = true) by (apply equiv_true; auto).
      cbn [pm_scan]. rewrite (equiv_equiv k k' q Hk Hk' Hkk').
      destruct (d_equiv q k') eqn:Hqk'; [|reflexivity].
      apply scan_below. apply (below_equiv q k'); try assumption.
      rewrite equiv_sym. assumption.
Qed.

Lemma erase_sum k m c :
  pm_find k m = Some c -> count_sum (pm_erase k m) = count_sum m - c.
Proof.
  induction m as [|[k' v'] m IH]; cbn [pm_find pm_erase]; [discriminate|].
  destruct (d_lt k' k); [|destruct (d_lt k k')]; intros Hc.
  - cbn [count_sum]. rewrite (IH Hc). lia.
  - discriminate.
  - injection Hc as ->. cbn [count_sum]. lia.
Qed.

End PriceMap.

(** ** Counting the live orders at a price *)

Section Orders.
Context {D : Type} `{DoubleLaws D}.

Implicit Types (orders : gmap Z D) (p q : D) (id : Z).

Lemma orders_at_insert q orders id p :
  orders !! id = None ->
  orders_at q (<[id := p]> orders)
  = if d_equiv p q then S (orders_at q orders) else orders_at q orders.
Proof.
  intros Hfree. unfold orders_at. rewrite map_filter_insert. cbn [snd].
  destruct (d_equiv p q) eqn:Hpq.
  - rewrite decide_True by reflexivity.
    apply map_size_insert_None. apply map_lookup_filter_None. auto.
  - rewrite decide_False by discriminate.
    rewrite delete_id by assumption. reflexivity.
Qed.

Lemma orders_at_delete q orders id p :
  orders !! id = Some p ->
  orders_at q (delete id orders)
  = if d_equiv p q then pred (orders_at q orders) else orders_at q orders.
Proof.
  intros Hid. unfold orders_at. rewrite map_filter_delete, map_size_delete.
  destruct (d_equiv p q) eqn:Hpq.
  - rewrite (proj2 (map_lookup_filter_Some _ orders id p)); [reflexivity|].
    split; [assumption|exact Hpq].
  - rewrite (proj2 (map_lookup_filter_None _ orders id)); [reflexivity|].
    right. intros x Hx. rewrite Hid in Hx. injection Hx as <-. cbn [snd].
    rewrite Hpq. discriminate.
Qed.

Lemma orders_at_le q orders : (orders_at q orders <= size orders)%nat.
Proof. apply map_subseteq_size, map_filter_subseteq. Qed.

Lemma orders_at_exists q orders :
  orders_at q orders <> O ->
  exists id p, orders !! id = Some p /\ d_equiv p q = true.
Proof.
  unfold orders_at. intros Hsize.
  apply map_size_non_empty_iff, map_choose in Hsize as (id & p & Hlook).
  apply map_lookup_filter_Some in Hlook as [Hid Hp]. eauto.
Qed.

Lemma orders_at_member q orders id p :
  orders !! id = Some p -> d_equiv p q = true -> orders_at q orders <> O.
Proof.
  intros Hid Hpq. unfold orders_at. apply map_size_non_empty_iff.
  intros Hempty.
  assert (Hlook : filter (fun e => d_equiv (snd e) q = true) orders !! id = Some p).
  { apply map_lookup_filter_Some. auto. }
  rewrite Hempty, lookup_empty in Hlook. discriminate.
Qed.

Lemma orders_at_equiv q q' orders :
  number q -> number q' -> d_equiv q q' = true ->
  orders_at q orders = orders_at q' orders.
Proof.
  intros Hq Hq' Hqq'. unfold orders_at. f_equal.
  apply map_filter_ext. intros id p _. cbn [snd].
  rewrite (equiv_equiv q q' p Hq Hq' Hqq'). reflexivity.
Qed.

End Orders.

(** ** The invariant of the order book *)

Section Book.
Context {D : Type} `{DoubleLaws D}.

Implicit Types (ob : OrderBook D).

Lemma count_opt_Some n c : count_opt n = Some c -> n <> O /\ c = Z.of_nat n.
Proof. destruct n; [discriminate|]. intros [= <-]. auto. Qed.

Lemma count_opt_S n : count_opt (S n) = Some (Z.of_nat n + 1).
Proof. cbn [count_opt]. f_equal. lia. Qed.

Lemma book_inv_new : book_inv (OrderBook_new (D := D)).
Proof.
  split; [apply pm_wf_nil|]. split; [|split].
  - intros id p Hid. cbn in Hid. rewrite lookup_empty in Hid. discriminate.
  - intros q _. unfold orders_at. cbn [OrderBook_new order_price_map_ price_count_map_].
    rewrite map_filter_empty, map_size_empty. reflexivity.
  - reflexivity.
Qed.

Lemma insert_order_inv order_id price ob :
  book_inv ob -> number price ->
  Z.of_nat (size (order_price_map_ ob)) < Int.max_int ->
  book_inv (insert_order order_id price ob).
Proof.
  intros Hinv Hprice Hroom. pose proof Hinv as (Hwf & Hnum & Hfind & Hsum).
  unfold insert_order.
  destruct (order_price_map_ ob !! order_id) as [p0|] eqn:Hid; [exact Hinv|].
  set (m := price_count_map_ ob) in *.
  set (orders := order_price_map_ ob) in *.
  assert (Hnum' : forall id p, <[order_id := price]> orders !! id = Some p -> number p).
  { intros id p. rewrite lookup_insert_Some. intros [[_ <-]|[_ Hp]]; eauto. }
  assert (Hsize : Z.of_nat (size (<[order_id := price]> orders))
                  = Z.of_nat (size orders) + 1).
  { rewrite map_size_insert_None by assumption. lia. }
  destruct (snd (pm_insert price 1 m)) eqn:Hins.
  - destruct (insert_new price 1 m Hwf Hprice Hins) as (Hwf' & Hnone & Hscan & Hsum').
    split; [exact Hwf'|]. split; [exact Hnum'|]. split.
    + intros q Hq. cbn [price_count_map_ order_price_map_].
      rewrite find_scan, Hscan, orders_at_insert by assumption.
      rewrite (equiv_sym q price).
      destruct (d_equiv price q) eqn:Hpq.
      * rewrite <- (orders_at_equiv price q) by assumption.
        rewrite <- find_scan, Hfind in Hnone by assumption.
        destruct (orders_at price orders); [reflexivity|discriminate].
      * rewrite <- find_scan by assumption. apply Hfind. assumption.
    + cbn [price_count_map_ order_price_map_]. lia.
  - destruct (insert_old price 1 m Hins) as [-> (c & Hc)].
    pose proof Hc as Hc'. rewrite Hfind in Hc' by assumption.
    apply count_opt_Some in Hc' as [Hpos ->].
    pose proof (orders_at_le price orders) as Hle.
    assert (Hadd : Int.add (Z.of_nat (orders_at price orders)) 1
                   = Z.of_nat (orders_at price orders) + 1).
    { apply IntFacts.add_exact.
      unfold Int.in_range, Int.min_int, Int.max_int in *. lia. }
    split; [apply update_wf; exact Hwf|]. split; [exact Hnum'|]. split.
    + intros q Hq. cbn [price_count_map_ order_price_map_].
      rewrite find_scan, update_scan, orders_at_insert
        by (try apply update_wf; assumption).
      rewrite <- find_scan, Hfind by assumption.
      rewrite (equiv_sym q price).
      destruct (d_equiv price q) eqn:Hpq; [|reflexivity].
      rewrite <- (orders_at_equiv price q) by assumption.
      destruct (orders_at price orders) as [|n] eqn:Hn; [contradiction|].
      cbn [fmap option_fmap option_map count_opt]. rewrite Hadd.
      f_equal. lia.
    + cbn [price_count_map_ order_price_map_].
      rewrite (update_sum _ price m _ Hc), Hadd. lia.
Qed.

Lemma erase_order_inv order_id ob :
  book_inv ob ->
  Z.of_nat (size (order_price_map_ ob)) <= Int.max_int ->
  book_inv (erase_order order_id ob).
Proof.
  intros Hinv Hroom. pose proof Hinv as (Hwf & Hnum & Hfind & Hsum).
  unfold erase_order.
  destruct (order_price_map_ ob !! order_id) as [price|] eqn:Hid; [|exact Hinv].
  set (m := price_count_map_ ob) in *.
  set (orders := order_price_map_ ob) in *.
  pose proof (Hnum _ _ Hid) as Hprice.
  pose proof (orders_at_member price orders _ _ Hid (equiv_refl price)) as Hpos.
  pose proof (orders_at_le price orders) as Hle.
  pose proof (Hfind price Hprice) as Hc.
  destruct (orders_at price orders) as [|n] eqn:Hn; [contradiction|].
  rewrite count_opt_S in Hc.
  assert (Hsub : Int.sub (Z.of_nat n + 1) 1 = Z.of_nat n).
  { rewrite IntFacts.sub_exact; [lia|].
    unfold Int.in_range, Int.min_int, Int.max_int in *. lia. }
  set (decremented := pm_update (fun c => Int.sub c 1) price m).
  assert (Hwfd : pm_wf decremented) by (apply update_wf; exact Hwf).
  assert (Hscand : forall q, number q ->
            pm_scan q decremented
            = if d_equiv price q then Some (Z.of_nat n) else pm_find q m).
  { intros q Hq. unfold decremented.
    rewrite update_scan, <- find_scan by assumption.
    rewrite (equiv_sym q price).
    destruct (d_equiv price q) eqn:Hpq; [|reflexivity].
    rewrite Hfind, <- (orders_at_equiv price q), Hn, count_opt_S by assumption.
    cbn [fmap option_fmap option_map]. rewrite Hsub. reflexivity. }
  assert (Hsumd : count_sum decremented = count_sum m - 1).
  { unfold decremented. rewrite (update_sum _ price m _ Hc), Hsub. lia. }
  assert (Hfd : pm_find price decremented = Some (Z.of_nat n)).
  { rewrite find_scan, Hscand, equiv_refl by assumption. reflexivity. }
  assert (Hnum' : forall id p, delete order_id orders !! id = Some p -> number p).
  { intros id p. rewrite lookup_delete_Some. intros [_ Hp]. eauto. }
  assert (Hsize : Z.of_nat (size (delete order_id orders))
                  = Z.of_nat (size orders) - 1).
  { rewrite map_size_delete, Hid.
    assert (size orders <> O) by (intros E; rewrite E in Hle; lia). lia. }
  assert (Hat : forall q, number q ->
            orders_at q (delete order_id orders)
            = if d_equiv price q then n else orders_at q orders).
  { intros q Hq. rewrite (orders_at_delete q orders order_id price Hid).
    destruct (d_equiv price q) eqn:Hpq; [|reflexivity].
    rewrite <- (orders_at_equiv price q), Hn by assumption. reflexivity. }
  rewrite Hfd. destruct (Z.leb_spec (Z.of_nat n) 0) as [Hlast|Hmore].
  - assert (n = O) by lia. subst n.
    split; [apply erase_wf; exact Hwfd|]. split; [exact Hnum'|]. split.
    + intros q Hq. cbn [price_count_map_ order_price_map_].
      rewrite find_scan, erase_scan, Hat by (try apply erase_wf; assumption).
      rewrite (equiv_sym q price).
      destruct (d_equiv price q) eqn:Hpq; [reflexivity|].
      rewrite Hscand, Hpq by assumption. apply Hfind. assumption.
    + cbn [price_count_map_ order_price_map_].
      rewrite (erase_sum price decremented _ Hfd). lia.
  - split; [exact Hwfd|]. split; [exact Hnum'|]. split.
    + intros q Hq. cbn [price_count_map_ order_price_map_].
      rewrite find_scan, Hscand, Hat by assumption.
      destruct (d_equiv price q) eqn:Hpq; [|apply Hfind; assumption].
      destruct n; [lia|]. reflexivity.
    + cbn [price_count_map_ order_price_map_]. lia.
Qed.

End Book.

Section Run.
Context {D : Type} `{DoubleLaws D}.

Implicit Types (ob : OrderBook D).

Lemma scan_in k c (m : list (D * Z)) :
  pm_wf m -> In (k, c) m -> pm_scan k m = Some c.
Proof.
  induction m as [|[k' v'] m IH]; [contradiction|].
  intros (Hk' & Hbelow & Hwf)%pm_wf_cons [[= -> ->]|Hin]; cbn [pm_scan].
  - rewrite equiv_refl. reflexivity.
  - assert (Hlt : d_lt k' k = true).
    { unfold below in Hbelow. rewrite List.Forall_forall in Hbelow.
      apply Hbelow. unfold pm_keys. apply (in_map fst _ _ Hin). }
    rewrite equiv_sym, (lt_not_equiv _ _ Hlt). auto.
Qed.

Lemma insert_order_size order_id price ob :
  (size (order_price_map_ (insert_order order_id price ob))
   <= S (size (order_price_map_ ob)))%nat.
Proof.
  unfold insert_order.
  destruct (order_price_map_ ob !! order_id) eqn:Hid; cbn [order_price_map_].
  - lia.
  - rewrite map_size_insert_None by assumption. lia.
Qed.

Lemma erase_order_size order_id ob :
  (size (order_price_map_ (erase_order order_id ob))
   <= size (order_price_map_ ob))%nat.
Proof.
  unfold erase_order.
  destruct (order_price_map_ ob !! order_id) eqn:Hid; cbn [order_price_map_].
  - rewrite map_size_delete, Hid. lia.
  - lia.
Qed.

Lemma apply_events_inv (evs : list (event D)) : forall ob,
  book_inv ob ->
  Forall event_price_ok evs ->
  Z.of_nat (size (order_price_map_ ob)) + Z.of_nat (length evs) <= Int.max_int ->
  book_inv (apply_events evs ob).
Proof.
  induction evs as [|ev evs IH]; intros ob Hinv Hok Hroom; [exact Hinv|].
  apply Forall_cons_iff in Hok as [Hev Hok]. cbn [length] in Hroom.
  change (apply_events (ev :: evs) ob) with (apply_events evs (apply_event ob ev)).
  apply IH; [|exact Hok|].
  - destruct ev as [order_id price|order_id]; cbn [apply_event].
    + apply insert_order_inv; [exact Hinv|exact Hev|lia].
    + apply erase_order_inv; [exact Hinv|lia].
  - destruct ev as [order_id price|order_id]; cbn [apply_event].
    + pose proof (insert_order_size order_id price ob). lia.
    + pose proof (erase_order_size order_id ob). lia.
Qed.

Lemma book_inv_reached (evs : list (event D)) :
  Forall event_price_ok evs ->
  Z.of_nat (length evs) <= Int.max_int ->
  book_inv (apply_events evs OrderBook_new).
Proof.
  intros Hok Hlen. apply apply_events_inv; [apply book_inv_new|exact Hok|].
  cbn [OrderBook_new order_price_map_]. rewrite map_size_empty. lia.
Qed.

(** What the invariant says of the orders and of the entries. *)

Lemma book_inv_order ob id p :
  book_inv ob -> order_price_map_ ob !! id = Some p ->
  exists c, pm_find p (price_count_map_ ob) = Some c /\ 1 <= c.
Proof.
  intros (Hwf & Hnum & Hfind & Hsum) Hid.
  rewrite Hfind by eauto.
  pose proof (orders_at_member p _ _ _ Hid (equiv_refl p)) as Hpos.
  destruct (orders_at p (order_price_map_ ob)) as [|n]; [contradiction|].
  eexists. split; [reflexivity|]. lia.
Qed.

Lemma book_inv_entry ob k c :
  book_inv ob -> In (k, c) (price_count_map_ ob) ->
  1 <= c /\ pm_find k (price_count_map_ ob) = Some c /\
  exists id p, order_price_map_ ob !! id = Some p /\ d_equiv p k = true.
Proof.
  intros (Hwf & Hnum & Hfind & Hsum) Hin.
  assert (Hk : number k).
  { destruct Hwf as [_ Hkeys]. rewrite List.Forall_forall in Hkeys.
    apply Hkeys. apply (in_map fst _ _ Hin). }
  pose proof (scan_in k c _ Hwf Hin) as Hscan.
  rewrite <- find_scan in Hscan by assumption.
  pose proof Hscan as Hc. rewrite Hfind in Hc by assumption.
  apply count_opt_Some in Hc as [Hpos ->].
  split; [lia|]. split; [exact Hscan|].
  apply orders_at_exists. exact Hpos.
Qed.

End Run.

(** ** The greatest key *)

Section Greatest.
Context {D : Type} `{DoubleLaws D}.

Lemma last_cons (e e' : D * Z) m : List.last (e' :: m) e = List.last m e'.
Proof.
  revert e e'. induction m as [|a m IH]; intros e e'; [reflexivity|].
  change (List.last (e' :: a :: m) e) with (List.last (a :: m) e).
  rewrite !IH. reflexivity.
Qed.

Lemma last_in (e : D * Z) m : In (List.last m e) (e :: m).
Proof.
  revert e. induction m as [|e' m IH]; intros e; [left; reflexivity|].
  right. rewrite last_cons. apply (IH e').
Qed.

(** In a price map in order no key is above the last one. *)
Lemma last_greatest (e : D * Z) m k c :
  pm_wf (e :: m) -> In (k, c) (e :: m) ->
  d_lt (pm_rbegin_key e m) k = false.
Proof.
  unfold pm_rbegin_key. revert e.
  induction m as [|e' m IH]; intros [k0 v0] Hwf Hin.
  - destruct Hin as [[= <- <-]|[]]. apply d_lt_irrefl.
  - apply pm_wf_cons in Hwf as (Hk0 & Hbelow & Hwf).
    rewrite last_cons.
    destruct Hin as [[= <- <-]|Hin]; [|apply (IH e' Hwf Hin)].
    apply lt_asym. unfold below in Hbelow.
    rewrite List.Forall_forall in Hbelow. apply Hbelow.
    apply (in_map fst _ _ (last_in e' m)).
Qed.

Lemma max_price_spec (ob : OrderBook D) :
  book_inv ob ->
  (order_price_map_ ob = ∅ -> d_isnan (max_price ob) = true) /\
  (order_price_map_ ob <> ∅ ->
   (exists c, In (max_price ob, c) (price_count_map_ ob)) /\
   (forall k c, In (k, c) (price_count_map_ ob) -> d_lt (max_price ob) k = false) /\
   (exists id p, order_price_map_ ob !! id = Some p /\
                 d_equiv p (max_price ob) = true) /\
   (forall id p, order_price_map_ ob !! id = Some p ->
                 d_lt (max_price ob) p = false)).
Proof.
  intros Hinv. pose proof Hinv as (Hwf & Hnum & Hfind & Hsum).
  unfold max_price. destruct (price_count_map_ ob) as [|e m] eqn:Hm.
  - split; [intros _; apply d_isnan_nan|].
    intros Hlive. apply map_choose in Hlive as (id & p & Hid).
    destruct (book_inv_order ob id p Hinv Hid) as (c & Hc & _).
    rewrite Hm in Hc. discriminate.
  - assert (Hlast : In (List.last m e) (price_count_map_ ob)).
    { rewrite Hm. apply last_in. }
    destruct (List.last m e) as [kmax cmax] eqn:Elast.
    assert (Hkey : pm_rbegin_key e m = kmax).
    { unfold pm_rbegin_key. rewrite Elast. reflexivity. }
    destruct (book_inv_entry ob kmax cmax Hinv Hlast)
      as (_ & _ & id0 & p0 & Hid0 & Hp0).
    split.
    { intros Hempty. rewrite Hempty, lookup_empty in Hid0. discriminate. }
    intros _. rewrite Hkey.
    assert (Hmax : forall k c, In (k, c) (e :: m) -> d_lt kmax k = false).
    { intros k c Hin. rewrite <- Hkey. apply (last_greatest e m k c Hwf Hin). }
    split; [exists cmax; rewrite <- Hm; exact Hlast|].
    split; [exact Hmax|]. split; [eauto|].
    intros id p Hid. apply not_true_is_false. intros Hlt.
    destruct (book_inv_order ob id p Hinv Hid) as (c & Hc & _).
    rewrite Hm, find_scan in Hc by assumption.
    assert (Hex : exists k, In (k, c) (e :: m) /\ d_equiv p k = true).
    { clear - Hc. induction (e :: m) as [|[k' v'] l IH]; [discriminate|].
      cbn [pm_scan] in Hc. destruct (d_equiv p k') eqn:Hpk.
      - injection Hc as ->. exists k'. split; [left; reflexivity|exact Hpk].
      - destruct (IH Hc) as (k & Hin & Hk). exists k. split; [right|]; assumption. }
    destruct Hex as (k & Hin & Hpk).
    assert (Hk : number k).
    { destruct Hwf as [_ Hkeys]. rewrite List.Forall_forall in Hkeys.
      apply Hkeys. apply (in_map fst _ _ Hin). }
    pose proof (lt_equiv_r p k kmax Hk Hpk Hlt) as Hlt'.
    rewrite (Hmax k c Hin) in Hlt'. discriminate.
Qed.

End Greatest.

(** C3: after every sequence of insertions and erasures on a new order
    book, with prices that are numbers and no more events than the greatest
    [int], the counts of the price map add up to the number of live orders;
    the price of every live order is a key of the price map, with a count
    of at least 1; every entry of the price map has a count of at least 1
    (none is zero or negative), is found under its key, and its key is the
    price of a live order. *)
Theorem price_counts_match_orders {D : Type} `{DoubleLaws D}
    (evs : list (event D)) :
  Forall event_price_ok evs ->
  Z.of_nat (length evs) <= Int.max_int ->
  let ob := apply_events evs OrderBook_new in
  count_sum (price_count_map_ ob) = Z.of_nat (size (order_price_map_ ob)) /\
  (forall id p, order_price_map_ ob !! id = Some p ->
     exists c, pm_find p (price_count_map_ ob) = Some c /\ 1 <= c) /\
  (forall k c, In (k, c) (price_count_map_ ob) ->
     1 <= c /\ pm_find k (price_count_map_ ob) = Some c /\
     exists id p, order_price_map_ ob !! id = Some p /\ d_equiv p k = true).
Proof.
  intros Hok Hlen ob.
  pose proof (book_inv_reached evs Hok Hlen) as Hinv. fold ob in Hinv.
  split; [apply Hinv|]. split.
  - intros id p. apply book_inv_order. exact Hinv.
  - intros k c. apply book_inv_entry. exact Hinv.
Qed.

Lemma price_counts_match_orders_witness :
  let ob := apply_events
    [Insert 1 (Scenario.price 10); Insert 2 (Scenario.price 12);
     Insert 3 (Scenario.price 10); Erase 2] OrderBook_new in
  count_sum (price_count_map_ ob) = Z.of_nat (size (order_price_map_ ob)) /\
  (forall id p, order_price_map_ ob !! id = Some p ->
     exists c, pm_find p (price_count_map_ ob) = Some c /\ 1 <= c) /\
  (forall k c, In (k, c) (price_count_map_ ob) ->
     1 <= c /\ pm_find k (price_count_map_ ob) = Some c /\
     exists id p, order_price_map_ ob !! id = Some p /\ d_equiv p k = true).
Proof.
  apply (price_counts_match_orders (D := spec_float)).
  - repeat constructor.
  - vm_compute. discriminate.
Defined.

(** C4: on an order book reached by insertions and erasures, [max_price()]
    is NaN when there is no live order; otherwise it is a key of the price
    map, no key of the price map is above it, it is the price of a live
    order, and no live order has a price above it.  After the insertion of
    orders at 10, 12 and 11 it is 12, and after the erasure of the order at
    12 it is 11. *)
Theorem max_price_is_greatest :
  (forall (D : Type) (ops : DoubleOps D), DoubleLaws D ->
   forall evs : list (event D),
     Forall event_price_ok evs ->
     Z.of_nat (length evs) <= Int.max_int ->
     let ob := apply_events evs OrderBook_new in
     (order_price_map_ ob = ∅ -> d_isnan (max_price ob) = true) /\
     (order_price_map_ ob <> ∅ ->
      (exists c, In (max_price ob, c) (price_count_map_ ob)) /\
      (forall k c, In (k, c) (price_count_map_ ob) ->
         d_lt (max_price ob) k = false) /\
      (exists id p, order_price_map_ ob !! id = Some p /\
                    d_equiv p (max_price ob) = true) /\
      (forall id p, order_price_map_ ob !! id = Some p ->
                    d_lt (max_price ob) p = false))) /\
  (let inserted := apply_events
     [Insert 1 (Scenario.price 10); Insert 2 (Scenario.price 12);
      Insert 3 (Scenario.price 11)] OrderBook_new in
   max_price inserted = Scenario.price 12 /\
   max_price (erase_order 2 inserted) = Scenario.price 11).
Proof.
  split.
  - intros D ops laws evs Hok Hlen ob. apply max_price_spec.
    apply book_inv_reached; assumption.
  - vm_compute. auto.
Qed.

Lemma max_price_is_greatest_witness :
  let ob := apply_events
    [Insert 1 (Scenario.price 10); Insert 2 (Scenario.price 12);
     Insert 3 (Scenario.price 11); Erase 2] OrderBook_new in
  (order_price_map_ ob = ∅ -> d_isnan (max_price ob) = true) /\
  (order_price_map_ ob <> ∅ ->
   (exists c, In (max_price ob, c) (price_count_map_ ob)) /\
   (forall k c, In (k, c) (price_count_map_ ob) ->
      d_lt (max_price ob) k = false) /\
   (exists id p, order_price_map_ ob !! id = Some p /\
                 d_equiv p (max_price ob) = true) /\
   (forall id p, order_price_map_ ob !! id = Some p ->
                 d_lt (max_price ob) p = false)).
Proof.
  apply (proj1 max_price_is_greatest spec_float binary64 binary64_laws).
  - repeat constructor.
  - vm_compute. discriminate.
Defined.

(** C6: [insert_order] with an order id that is among the live orders
    gives back the order book as it was, both maps, whatever the price. *)
Theorem duplicate_insert_ignored {D : Type} `{DoubleOps D}
    (order_id : Z) (price : D) (ob : OrderBook D) :
  is_Some (order_price_map_ ob !! order_id) ->
  insert_order order_id price ob = ob.
Proof.
  intros [p Hid]. unfold insert_order. rewrite Hid. reflexivity.
Qed.

Lemma duplicate_insert_ignored_witness :
  let ob := apply_events [Insert 1 (Scenario.price 10)] OrderBook_new in
  insert_order 1 (Scenario.price 12) ob = ob.
Proof.
  intros ob. apply (duplicate_insert_ignored 1 (Scenario.price 12) ob).
  exists (Scenario.price 10). reflexivity.
Defined.

(** C7: [erase_order] with an order id that is not among the live orders
    gives back the order book as it was, both maps. *)
Theorem unknown_erase_ignored {D : Type} `{DoubleOps D}
    (order_id : Z) (ob : OrderBook D) :
  order_price_map_ ob !! order_id = None ->
  erase_order order_id ob = ob.
Proof.
  intros Hid. unfold erase_order. rewrite Hid. reflexivity.
Qed.

Lemma unknown_erase_ignored_witness :
  let ob := apply_events [Insert 1 (Scenario.price 10)] OrderBook_new in
  erase_order 2 ob = ob.
Proof.
  intros ob. apply (unknown_erase_ignored 2 ob). reflexivity.
Defined.

(** * Further properties *)

(** ** An [int] through [double] and back, on binary64 *)

Module Binary64Conv.

Lemma iter_xO_value (m n : positive) :
  Zpos (Pos.iter xO m n) = Zpos m * 2 ^ Zpos n.
Proof.
  induction n as [|n IH] using Pos.peano_ind.
  - cbn [Pos.iter]. lia.
  - rewrite Pos.iter_succ, Pos2Z.inj_xO, IH, Pos2Z.inj_succ, Z.pow_succ_r by lia.
    lia.
Qed.

Lemma iter_xO_digits (m n : positive) :
  digits2_pos (Pos.iter xO m n) = (digits2_pos m + n)%positive.
Proof.
  induction n as [|n IH] using Pos.peano_ind.
  - cbn [Pos.iter digits2_pos]. lia.
  - rewrite Pos.iter_succ. cbn [digits2_pos]. rewrite IH. lia.
Qed.

Lemma digits2_pos_lower (m : positive) :
  2 ^ (Zpos (digits2_pos m) - 1) <= Zpos m.
Proof.
  induction m as [m IH|m IH|]; cbn [digits2_pos].
  - rewrite Pos2Z.inj_succ.
    replace (Z.succ (Zpos (digits2_pos m)) - 1) with (Z.succ (Zpos (digits2_pos m) - 1)) by lia.
    rewrite Z.pow_succ_r by lia. lia.
  - rewrite Pos2Z.inj_succ.
    replace (Z.succ (Zpos (digits2_pos m)) - 1) with (Z.succ (Zpos (digits2_pos m) - 1)) by lia.
    rewrite Z.pow_succ_r by lia. lia.
  - cbn. lia.
Qed.

Lemma digits2_pos_small (m : positive) :
  Zpos m <= 2 ^ 31 -> Zpos (digits2_pos m) <= 53.
Proof.
  intros Hm. pose proof (digits2_pos_lower m) as Hlow.
  destruct (Z.le_gt_cases (Zpos (digits2_pos m)) 53) as [|Hbig]; [assumption|].
  assert (2 ^ 32 <= 2 ^ (Zpos (digits2_pos m) - 1)) by (apply Z.pow_le_mono_r; lia).
  lia.
Qed.

Lemma binary_round_exact (s : bool) (m : positive) :
  Zpos (digits2_pos m) <= 53 ->
  exists m' e,
    binary_round Binary64.prec Binary64.emax s m 0 = S754_finite s m' e /\
    e <= 0 /\ Zpos m' = Zpos m * 2 ^ (- e).
Proof.
  intros Hd. unfold binary_round.
  set (d := Zpos (digits2_pos m)) in *.
  assert (Hfexp : fexp Binary64.prec Binary64.emax (d + 0) = d - 53).
  { unfold fexp, emin, Binary64.prec, Binary64.emax. subst d. lia. }
  rewrite Hfexp. unfold shl_align.
  assert (Haux : forall mz ez, Zpos (digits2_pos mz) = 53 -> -52 <= ez <= 0 ->
            binary_round_aux Binary64.prec Binary64.emax s (Zpos mz) ez loc_Exact
            = S754_finite s mz ez).
  { intros mz ez Hmz Hez. unfold binary_round_aux, shr_fexp.
    cbn [Zdigits2 shr_record_of_loc]. rewrite Hmz.
    assert (Hz : fexp Binary64.prec Binary64.emax (53 + ez) - ez = 0).
    { unfold fexp, emin, Binary64.prec, Binary64.emax. lia. }
    rewrite Hz. cbn [shr shr_m loc_of_shr_record round_nearest_even Zdigits2 shr_record_of_loc].
    rewrite Hmz, Hz. cbn [shr shr_m].
    unfold Binary64.prec, Binary64.emax.
    destruct (Z.leb_spec ez (1024 - 53)); [reflexivity|lia]. }
  destruct (d - 53 - 0) as [|p|p] eqn:Hshift.
  - exists m, 0. split; [apply Haux; subst d; lia|]. split; [lia|]. cbn. lia.
  - subst d. lia.
  - exists (Pos.iter xO m p), (d - 53). split; [|split].
    + apply Haux; [|subst d; lia]. rewrite iter_xO_digits. subst d. lia.
    + lia.
    + rewrite iter_xO_value. f_equal. f_equal. lia.
Qed.

Lemma shiftl_back (m m' : positive) (e : Z) :
  e <= 0 -> Zpos m' = Zpos m * 2 ^ (- e) -> Z.shiftl (Zpos m') e = Zpos m.
Proof.
  intros He ->. rewrite <- (Z.opp_involutive e) at 2.
  rewrite Z.shiftl_opp_r, Z.shiftr_div_pow2 by lia.
  apply Z.div_mul. apply Z.pow_nonzero; lia.
Qed.

Lemma to_int_of_int (z : Z) :
  Int.in_range z -> Binary64.to_int (Binary64.of_int z) = z.
Proof.
  intros Hz. unfold Binary64.of_int, binary_normalize.
  destruct z as [|m|m].
  - reflexivity.
  - destruct (binary_round_exact false m) as (m' & e & -> & He & Hm').
    { apply digits2_pos_small. unfold Int.in_range, Int.max_int in Hz. lia. }
    cbn [Binary64.to_int cond_Zopp]. rewrite (shiftl_back m m' e He Hm').
    apply IntFacts.wrap_in_range. exact Hz.
  - destruct (binary_round_exact true m) as (m' & e & -> & He & Hm').
    { apply digits2_pos_small. unfold Int.in_range, Int.min_int in Hz. lia. }
    cbn [Binary64.to_int cond_Zopp]. rewrite (shiftl_back m m' e He Hm').
    apply IntFacts.wrap_in_range. exact Hz.
Qed.

End Binary64Conv.

#[export] Instance binary64_conv : DoubleConv spec_float.
Proof. split. exact Binary64Conv.to_int_of_int. Qed.

#[export] Instance exact_conv : DoubleConv Exact.t.
Proof. split. intros z Hz. apply (BlendFacts.exact_to_int z Hz). Qed.

(** ** More on the price map and the order book *)

Section PriceMapMore.
Context {D : Type} `{DoubleLaws D}.
Implicit Types (m : list (D * Z)) (k q : D) (v c : Z).

Lemma update_find f k m : pm_find k (pm_update f k m) = f <$> pm_find k m.
Proof.
  induction m as [|[k' v'] m IH]; [reflexivity|]. cbn [pm_update pm_find].
  destruct (d_lt k' k) eqn:Hlt; [|destruct (d_lt k k') eqn:Hgt]; cbn [pm_find].
  - rewrite Hlt. exact IH.
  - rewrite Hlt, Hgt. reflexivity.
  - rewrite Hlt, Hgt. reflexivity.
Qed.

Lemma update_update f g k m :
  (forall c, pm_find k m = Some c -> g (f c) = c) ->
  pm_update g k (pm_update f k m) = m.
Proof.
  induction m as [|[k' v'] m IH]; [reflexivity|]. cbn [pm_update pm_find].
  destruct (d_lt k' k) eqn:Hlt; [|destruct (d_lt k k') eqn:Hgt];
    intros Hgf; cbn [pm_update]; rewrite Hlt, ?Hgt.
  - rewrite (IH Hgf). reflexivity.
  - reflexivity.
  - rewrite (Hgf v' eq_refl). reflexivity.
Qed.

Lemma insert_update_find f k v m :
  snd (pm_insert k v m) = true ->
  pm_find k (pm_update f k (fst (pm_insert k v m))) = Some (f v).
Proof.
  intros Hins. rewrite update_find. 
  induction m as [|[k' v'] m IH]; cbn [pm_insert] in *.
  - cbn [fst pm_find]. rewrite d_lt_irrefl. reflexivity.
  - destruct (d_lt k' k) eqn:Hlt; [|destruct (d_lt k k') eqn:Hgt];
      cbn [fst snd pm_find] in *.
    + rewrite Hlt. apply IH. exact Hins.
    + rewrite d_lt_irrefl. reflexivity.
    + discriminate.
Qed.

Lemma insert_update_erase f k v m :
  snd (pm_insert k v m) = true ->
  pm_erase k (pm_update f k (fst (pm_insert k v m))) = m.
Proof.
  induction m as [|[k' v'] m IH]; cbn [pm_insert].
  - intros _. cbn [fst pm_update pm_erase]. rewrite d_lt_irrefl.
    cbn [pm_erase]. rewrite d_lt_irrefl. reflexivity.
  - destruct (d_lt k' k) eqn:Hlt; [|destruct (d_lt k k') eqn:Hgt];
      cbn [fst snd]; intros Hins.
    + cbn [pm_update]. rewrite Hlt. cbn [pm_erase]. rewrite Hlt.
      rewrite (IH Hins). reflexivity.
    + cbn [pm_update]. rewrite d_lt_irrefl. cbn [pm_erase].
      rewrite d_lt_irrefl. reflexivity.
    + discriminate.
Qed.

End PriceMapMore.

Section BookMore.
Context {D : Type} `{DoubleLaws D}.
Implicit Types (ob : OrderBook D).

Lemma book_eq ob ob' :
  order_price_map_ ob = order_price_map_ ob' ->
  price_count_map_ ob = price_count_map_ ob' -> ob = ob'.
Proof. destruct ob, ob'. cbn. intros -> ->. reflexivity. Qed.

Lemma erase_after_insert_inv order_id price ob :
  book_inv ob -> number price ->
  Z.of_nat (size (order_price_map_ ob)) < Int.max_int ->
  order_price_map_ ob !! order_id = None ->
  erase_order order_id (insert_order order_id price ob) = ob.
Proof.
  intros Hinv Hprice Hroom Hfresh. pose proof Hinv as (Hwf & Hnum & Hfind & Hsum).
  unfold insert_order. rewrite Hfresh. unfold erase_order.
  cbn [order_price_map_ price_count_map_]. rewrite lookup_insert_eq.
  apply book_eq; cbn [order_price_map_ price_count_map_].
  { rewrite delete_insert_eq. apply delete_id. exact Hfresh. }
  destruct (snd (pm_insert price 1 (price_count_map_ ob))) eqn:Hins.
  - rewrite insert_update_find by exact Hins.
    replace (Int.sub 1 1) with 0 by reflexivity. cbn [Z.leb Z.compare].
    apply insert_update_erase. exact Hins.
  - destruct (insert_old price 1 _ Hins) as [-> (c & Hc)].
    pose proof Hc as Hc'. rewrite Hfind in Hc' by assumption.
    apply count_opt_Some in Hc' as [Hpos ->].
    pose proof (orders_at_le price (order_price_map_ ob)) as Hle.
    set (n := Z.of_nat (orders_at price (order_price_map_ ob))) in *.
    assert (Hback : Int.sub (Int.add n 1) 1 = n).
    { rewrite IntFacts.add_exact, IntFacts.sub_exact;
        unfold Int.in_range, Int.min_int, Int.max_int in *; lia. }
    assert (Hsame : pm_update (fun c => Int.sub c 1) price
                      (pm_update (fun c => Int.add c 1) price (price_count_map_ ob))
                    = price_count_map_ ob).
    { apply update_update. intros c0 Hc0. rewrite Hc in Hc0.
      injection Hc0 as <-. exact Hback. }
    rewrite Hsame, Hc.
    destruct (Z.leb_spec n 0); [lia|]. reflexivity.
Qed.
End BookMore.

Section MaxMore.
Context {D : Type} `{DoubleLaws D}.
Implicit Types (ob : OrderBook D) (m : list (D * Z)).

Lemma last_key_below k (e : D * Z) m :
  below k (e :: m) -> d_lt k (fst (List.last m e)) = true.
Proof.
  unfold below. rewrite List.Forall_forall. intros Hall. apply Hall.
  apply (in_map fst _ _ (last_in e m)).
Qed.

(** The greatest key after an insertion that added an entry. *)
Lemma insert_last k v m (e0 : D * Z) :
  pm_wf m -> snd (pm_insert k v m) = true ->
  fst (List.last (fst (pm_insert k v m)) e0)
  = match m with
    | [] => k
    | _ :: _ => if d_lt (fst (List.last m e0)) k then k else fst (List.last m e0)
    end.
Proof.
  revert e0. induction m as [|[k' v'] m IH]; intros e0 Hwf; [reflexivity|].
  apply pm_wf_cons in Hwf as (Hk' & Hbelow & Hwf). cbn [pm_insert].
  destruct (d_lt k' k) eqn:Hlt; [|destruct (d_lt k k') eqn:Hgt];
    cbn [fst snd]; intros Hins.
  - rewrite !last_cons, (IH (k', v') Hwf Hins).
    destruct m as [|e m]; [cbn [List.last fst]; rewrite Hlt; reflexivity|].
    reflexivity.
  - rewrite !last_cons.
    assert (Hk : d_lt k (fst (List.last m (k', v'))) = true).
    { apply last_key_below. apply below_cons. split; [exact Hgt|].
      eapply below_trans; eassumption. }
    rewrite (lt_asym _ _ Hk). reflexivity.
  - discriminate.
Qed.

Lemma update_last f k m (e0 : D * Z) :
  fst (List.last (pm_update f k m) e0) = fst (List.last m e0).
Proof.
  revert e0. induction m as [|[k' v'] m IH]; intros e0; [reflexivity|].
  cbn [pm_update].
  destruct (d_lt k' k); [|destruct (d_lt k k')]; rewrite ?last_cons.
  - apply IH.
  - reflexivity.
  - destruct m as [|p m]; [reflexivity|]. rewrite !last_cons. reflexivity.
Qed.

Lemma max_price_insert_inv order_id price ob :
  book_inv ob -> number price ->
  order_price_map_ ob !! order_id = None ->
  max_price (insert_order order_id price ob)
  = match price_count_map_ ob with
    | [] => price
    | _ :: _ => if d_lt (max_price ob) price then price else max_price ob
    end.
Proof.
  intros Hinv Hprice Hfresh. pose proof Hinv as (Hwf & Hnum & Hfind & Hsum).
  unfold insert_order. rewrite Hfresh. unfold max_price at 1.
  cbn [price_count_map_].
  destruct (snd (pm_insert price 1 (price_count_map_ ob))) eqn:Hins.
  - pose proof (insert_last price 1 _ (price, 1) Hwf Hins) as Hlast.
    destruct (fst (pm_insert price 1 (price_count_map_ ob))) as [|e m] eqn:Hm.
    + exfalso. clear - Hm. destruct (price_count_map_ ob) as [|[k' v'] l];
        cbn [pm_insert] in Hm; [discriminate|].
      destruct (d_lt k' price); [|destruct (d_lt price k')]; discriminate.
    + unfold pm_rbegin_key. rewrite <- last_cons with (e := (price, 1)), Hlast.
      unfold max_price, pm_rbegin_key.
      destruct (price_count_map_ ob) as [|e' m']; [reflexivity|].
      rewrite last_cons. reflexivity.
  - destruct (insert_old price 1 _ Hins) as [-> (c & Hc)].
    unfold max_price.
    destruct (price_count_map_ ob) as [|e m] eqn:Hm; [discriminate|].
    assert (Hmax : pm_rbegin_key e m
                   = fst (List.last (pm_update (fun c => Int.add c 1) price (e :: m)) e)).
    { rewrite update_last. unfold pm_rbegin_key. rewrite last_cons. reflexivity. }
    destruct (pm_update (fun c => Int.add c 1) price (e :: m)) as [|e' m'] eqn:Hup.
    + exfalso. apply (f_equal pm_keys) in Hup. rewrite update_keys in Hup.
      destruct e. discriminate.
    + unfold pm_rbegin_key at 1. rewrite <- last_cons with (e := e), <- Hmax.
      destruct (d_lt (pm_rbegin_key e m) price) eqn:Hlt; [|reflexivity].
      exfalso. rewrite find_scan in Hc by assumption.
      assert (Hex : exists k, In (k, c) (e :: m) /\ d_equiv price k = true).
      { clear - Hc. induction (e :: m) as [|[k' v'] l IH]; [discriminate|].
        cbn [pm_scan] in Hc. destruct (d_equiv price k') eqn:Hpk.
        - injection Hc as ->. exists k'. split; [left; reflexivity|exact Hpk].
        - destruct (IH Hc) as (k & Hin & Hk). exists k. split; [right|]; assumption. }
      destruct Hex as (k & Hin & Hpk).
      assert (Hk : number k).
      { destruct Hwf as [_ Hkeys]. rewrite List.Forall_forall in Hkeys.
        apply Hkeys. apply (in_map fst _ _ Hin). }
      pose proof (lt_equiv_r price k _ Hk Hpk Hlt) as Hlt'.
      rewrite (last_greatest e m k c Hwf Hin) in Hlt'. discriminate.
Qed.

End MaxMore.

(** ** The time origin, and the time counted *)

Section Shift.
Context {D : Type} `{DoubleLaws D}.

Lemma sub_shift a b c : Int.sub (a + c) (b + c) = Int.sub a b.
Proof. unfold Int.sub. f_equal. lia. Qed.

Lemma next_price_shifted c time price (t t' : TWAP D) :
  shifted c t t' ->
  shifted c (next_price time price t) (next_price (time + c) price t').
Proof.
  intros (Hlast & Havg & Htot & Htime). unfold next_price.
  rewrite Hlast, Havg, Htot.
  destruct (d_isnan (last_price_ t)) eqn:Hnan; cbn [negb].
  - unfold shifted. cbn. auto.
  - rewrite (Htime eq_refl), sub_shift.
    destruct (Int.sub time (last_time_ t) <? 0).
    + unfold shifted. rewrite Hnan. auto.
    + destruct (0 <? total_time_ t); unfold shifted; cbn; auto.
Qed.

Lemma observe_all_shifted c (obs : list (Z * D)) : forall t t',
  shifted c t t' ->
  shifted c (observe_all obs t) (observe_all (shift_times c obs) t').
Proof.
  induction obs as [|[time price] obs IH]; intros t t' Hs; [exact Hs|].
  cbn [shift_times map fst snd]. 
  change (shifted c (observe_all obs (next_price time price t))
            (observe_all (shift_times c obs) (next_price (time + c) price t'))).
  apply IH, next_price_shifted, Hs.
Qed.

Lemma shifted_new c : shifted c (TWAP_new (D := D)) TWAP_new.
Proof.
  unfold shifted. cbn. rewrite d_isnan_nan. repeat split. discriminate.
Qed.

End Shift.

Section Counted.
Context {D : Type} `{DoubleLaws D} `{!DoubleConv D}.

Lemma counted_time_cons t0 (p0 : D) t1 p1 rest :
  counted_time ((t0, p0) :: (t1, p1) :: rest)
  = (if d_isnan p0 then 0 else t1 - t0) + counted_time ((t1, p1) :: rest).
Proof. reflexivity. Qed.

Lemma counted_run (rest : list (Z * D)) : forall (t : TWAP D) b,
  0 <= total_time_ t ->
  Sorted Z.le (last_time_ t :: map fst rest) ->
  total_time_ t <= last_time_ t - b ->
  Forall (fun o => fst o - b <= Int.max_int) rest ->
  let t' := observe_all rest t in
  total_time_ t'
  = total_time_ t + counted_time ((last_time_ t, last_price_ t) :: rest) /\
  total_time_ t <= total_time_ t'.
Proof.
  induction rest as [|[t1 p1] rest IH]; intros t b Hpos Hsorted Hb Hspan t'; subst t'.
  - cbn. lia.
  - apply Sorted_inv in Hsorted as [Hsorted Hhd].
    apply HdRel_inv in Hhd. cbn [map fst] in Hsorted, Hhd.
    apply Forall_cons_iff in Hspan as [Hfit Hspan]. cbn [fst] in Hfit.
    change (observe_all ((t1, p1) :: rest) t)
      with (observe_all rest (next_price t1 p1 t)).
    set (d := t1 - last_time_ t).
    assert (Hd : Int.sub t1 (last_time_ t) = d).
    { apply IntFacts.sub_exact.
      unfold Int.in_range, Int.min_int, Int.max_int in *. subst d. lia. }
    assert (Hstep : let s := next_price t1 p1 t in
              last_time_ s = t1 /\ last_price_ s = p1 /\
              total_time_ s
              = total_time_ t + (if d_isnan (last_price_ t) then 0 else d)).
    { destruct (d_isnan (last_price_ t)) eqn:Hnan.
      - rewrite next_price_undefined_last by assumption. cbn. repeat split. lia.
      - destruct (Z.ltb_spec 0 (total_time_ t)) as [Htot|Htot].
        + rewrite next_price_blend by (rewrite ?Hd; subst d; lia || assumption).
          cbn. rewrite Hd. repeat split.
          assert (Hsum : Int.add (total_time_ t) d = total_time_ t + d).
          { apply IntFacts.add_exact.
            unfold Int.in_range, Int.min_int, Int.max_int in *. subst d. lia. }
          rewrite Hsum. apply d_to_int_of_int.
          unfold Int.in_range, Int.min_int, Int.max_int in *. subst d. lia.
        + rewrite next_price_first_interval by (rewrite ?Hd; subst d; lia || assumption).
          cbn. rewrite Hd. repeat split. lia. }
    destruct Hstep as (Htime & Hprice & Htotal).
    assert (Hgain : 0 <= (if d_isnan (last_price_ t) then 0 else d) <= d).
    { destruct (d_isnan (last_price_ t)); subst d; lia. }
    destruct (IH (next_price t1 p1 t) b) as [Heq Hle];
      rewrite ?Htime, ?Hprice, ?Htotal; try assumption; try lia.
    rewrite Htime, Hprice, Htotal in Heq. rewrite Htotal in Hle.
    rewrite counted_time_cons. fold d. split; lia.
Qed.
End Counted.

Section CountedTop.
Context {D : Type} `{DoubleLaws D} `{!DoubleConv D}.

Lemma counted_from_new (obs : list (Z * D)) :
  Sorted Z.le (map fst obs) ->
  (forall a b, In a obs -> In b obs -> fst b - fst a <= Int.max_int) ->
  let t := observe_all obs TWAP_new in
  total_time_ t = counted_time obs /\ 0 <= total_time_ t.
Proof.
  destruct obs as [|[t0 p0] rest]; intros Hsorted Hspan t; subst t.
  - cbn. lia.
  - change (observe_all ((t0, p0) :: rest) TWAP_new)
      with (observe_all rest (next_price t0 p0 TWAP_new)).
    rewrite next_price_undefined_last by (cbn; apply d_isnan_nan).
    set (s := {| last_price_ := p0; last_time_ := t0;
                 avg_price_ := avg_price_ TWAP_new;
                 total_time_ := total_time_ TWAP_new |}).
    destruct (counted_run rest s t0) as [Heq Hle]; cbn; try lia; try assumption.
    { apply List.Forall_forall. intros o Ho.
      apply (Hspan (t0, p0) o); cbn; auto. }
    cbn in Heq, Hle. split; lia.
Qed.
End CountedTop.

(** ** The loop of [main] *)

Section MainFacts.
Context {D : Type} `{DoubleLaws D}.
Implicit Types (st : run_state D) (l : line D).

Lemma process_incomplete st l : complete l = false -> process_line st l = st.
Proof.
  unfold complete, process_line.
  destruct (read_time l); [|reflexivity].
  destruct (read_operation l) as [operation|]; [|reflexivity].
  destruct (read_order_id l); [|reflexivity].
  destruct (String.eqb operation "I"); [|discriminate].
  destruct (read_price l); [discriminate|reflexivity].
Qed.

Lemma main_loop_filter_from (lines : list (line D)) : forall st,
  fold_left process_line lines st
  = fold_left process_line (List.filter complete lines) st.
Proof.
  induction lines as [|l lines IH]; intros st; [reflexivity|].
  cbn [fold_left List.filter]. destruct (complete l) eqn:Hl.
  - cbn [fold_left]. apply IH.
  - rewrite (process_incomplete st l Hl). apply IH.
Qed.

Lemma process_book st l :
  order_book (process_line st l)
  = match event_of_line l with
    | Some ev => apply_event (order_book st) ev
    | None => order_book st
    end.
Proof.
  unfold process_line, event_of_line.
  destruct (read_time l); [|reflexivity].
  destruct (read_operation l) as [operation|]; [|reflexivity].
  destruct (read_order_id l); [|reflexivity].
  destruct (String.eqb operation "I").
  - destruct (read_price l); reflexivity.
  - destruct (String.eqb operation "E"); reflexivity.
Qed.

Lemma main_book_from (lines : list (line D)) : forall st,
  order_book (fold_left process_line lines st)
  = apply_events (events_of_lines lines) (order_book st).
Proof.
  induction lines as [|l lines IH]; intros st; [reflexivity|].
  cbn [fold_left]. rewrite IH, process_book.
  cbn [events_of_lines].
  destruct (event_of_line l); reflexivity.
Qed.

(** What has been printed is never NaN. *)
Lemma process_printed st l :
  Forall (fun p => d_isnan p = false) (printed st) ->
  Forall (fun p => d_isnan p = false) (printed (process_line st l)).
Proof.
  intros Hst.
  assert (Hfeed : forall time ob,
            Forall (fun p => d_isnan p = false) (printed (feed_price time ob st))).
  { intros time ob. unfold feed_price. cbn [printed].
    destruct (d_isnan (avg_price _)) eqn:Hnan; cbn [negb]; [exact Hst|].
    apply Forall_app. split; [exact Hst|]. repeat constructor. exact Hnan. }
  unfold process_line.
  destruct (read_time l); [|exact Hst].
  destruct (read_operation l) as [operation|]; [|exact Hst].
  destruct (read_order_id l); [|exact Hst].
  destruct (String.eqb operation "I").
  - destruct (read_price l); [apply Hfeed|exact Hst].
  - destruct (String.eqb operation "E"); apply Hfeed.
Qed.


Lemma feed_silent time ob st :
  silent st -> printed (feed_price time ob st) = printed st.
Proof.
  intros [Hlast Havg]. unfold feed_price. cbn [printed].
  rewrite next_price_undefined_last by exact Hlast.
  unfold avg_price. cbn [avg_price_]. rewrite Havg. reflexivity.
Qed.

Lemma process_silent st l :
  silent st -> printed (process_line st l) = printed st.
Proof.
  intros Hs. unfold process_line.
  destruct (read_time l); [|reflexivity].
  destruct (read_operation l) as [operation|]; [|reflexivity].
  destruct (read_order_id l); [|reflexivity].
  destruct (String.eqb operation "I").
  - destruct (read_price l); [apply feed_silent, Hs|reflexivity].
  - destruct (String.eqb operation "E"); apply feed_silent, Hs.
Qed.

Lemma feed_length time ob st :
  (length (printed (feed_price time ob st)) <= S (length (printed st)))%nat.
Proof.
  unfold feed_price. cbn [printed].
  destruct (negb _); [rewrite length_app; cbn; lia|lia].
Qed.

Lemma process_length st l :
  (length (printed (process_line st l))
   <= (if complete l then 1 else 0) + length (printed st))%nat.
Proof.
  destruct (complete l) eqn:Hl.
  - unfold process_line.
    destruct (read_time l); [|lia].
    destruct (read_operation l) as [operation|]; [|lia].
    destruct (read_order_id l); [|lia].
    destruct (String.eqb operation "I").
    + destruct (read_price l); [apply feed_length|lia].
    + destruct (String.eqb operation "E"); apply feed_length.
  - rewrite process_incomplete by exact Hl. lia.
Qed.

Lemma printed_bound_from (lines : list (line D)) : forall st n,
  (length (printed st) <= pred n)%nat ->
  (n = O -> silent st) ->
  (length (printed (fold_left process_line lines st))
   <= pred (n + length (List.filter complete lines)))%nat.
Proof.
  induction lines as [|l lines IH]; intros st n Hlen Hsilent.
  - cbn. rewrite Nat.add_0_r. exact Hlen.
  - cbn [fold_left List.filter]. destruct (complete l) eqn:Hl.
    + cbn [length]. replace (n + S (length (List.filter complete lines)))%nat
        with (S n + length (List.filter complete lines))%nat by lia.
      apply IH; [|discriminate].
      destruct n as [|n].
      * rewrite (process_silent st l (Hsilent eq_refl)). cbn in *. lia.
      * pose proof (process_length st l) as Hp. rewrite Hl in Hp. cbn in *. lia.
    + rewrite (process_incomplete st l Hl). apply IH; assumption.
Qed.

Lemma silent_start : silent (main_start (D := D)).
Proof. split; cbn; apply d_isnan_nan. Qed.

Lemma process_idle st l :
  idle st -> inserts l = false -> idle (process_line st l).
Proof.
  intros Hidle Hl. pose proof Hidle as (Hbook & Hsilent & Hprinted).
  assert (Hfeed : forall time, idle (feed_price time OrderBook_new st)).
  { intros time. split; [reflexivity|]. split.
    - destruct Hsilent as [Hlast Havg]. unfold feed_price, silent. cbn [twap].
      rewrite next_price_undefined_last by exact Hlast.
      cbn [last_price_ avg_price_ max_price OrderBook_new price_count_map_].
      split; [apply d_isnan_nan|exact Havg].
    - rewrite feed_silent; assumption. }
  unfold inserts, event_of_line in Hl. unfold process_line.
  destruct (read_time l); [|exact Hidle].
  destruct (read_operation l) as [operation|]; [|exact Hidle].
  destruct (read_order_id l); [|exact Hidle].
  destruct (String.eqb operation "I").
  - destruct (read_price l); [discriminate|exact Hidle].
  - rewrite Hbook. destruct (String.eqb operation "E"); [|apply Hfeed].
    replace (erase_order z OrderBook_new) with (OrderBook_new (D := D));
      [apply Hfeed|].
    unfold erase_order. cbn [OrderBook_new order_price_map_].
    rewrite lookup_empty. reflexivity.
Qed.

Lemma main_idle (lines : list (line D)) : forall st,
  idle st -> Forall (fun l => inserts l = false) lines ->
  idle (fold_left process_line lines st).
Proof.
  induction lines as [|l lines IH]; intros st Hidle Hall; [exact Hidle|].
  apply Forall_cons_iff in Hall as [Hl Hall]. cbn [fold_left].
  apply IH; [apply process_idle|]; assumption.
Qed.

End MainFacts.

(** ** Runs of events *)

Section RunsMore.
Context {D : Type} `{DoubleLaws D}.
Implicit Types (ob : OrderBook D).

Lemma apply_events_snoc (evs : list (event D)) ev ob :
  apply_events (evs ++ [ev]) ob = apply_event (apply_events evs ob) ev.
Proof. unfold apply_events. rewrite fold_left_app. reflexivity. Qed.

Lemma apply_events_size (evs : list (event D)) : forall ob,
  (size (order_price_map_ (apply_events evs ob))
   <= size (order_price_map_ ob) + length evs)%nat.
Proof.
  induction evs as [|ev evs IH]; intros ob; [cbn; lia|].
  change (apply_events (ev :: evs) ob) with (apply_events evs (apply_event ob ev)).
  specialize (IH (apply_event ob ev)). cbn [length].
  destruct ev as [order_id price|order_id]; cbn [apply_event] in *.
  - pose proof (insert_order_size order_id price ob). lia.
  - pose proof (erase_order_size order_id ob). lia.
Qed.

Lemma reached_size (evs : list (event D)) :
  (size (order_price_map_ (apply_events evs OrderBook_new)) <= length evs)%nat.
Proof.
  pose proof (apply_events_size evs OrderBook_new) as Hs.
  cbn [OrderBook_new order_price_map_] in Hs. rewrite map_size_empty in Hs.
  exact Hs.
Qed.

(** A book without live orders has no entry in its price map. *)
Lemma book_inv_empty ob :
  book_inv ob -> order_price_map_ ob = ∅ -> price_count_map_ ob = [].
Proof.
  intros Hinv Hempty. destruct (price_count_map_ ob) as [|[k c] m] eqn:Hm;
    [reflexivity|].
  destruct (book_inv_entry ob k c Hinv) as (_ & _ & id & p & Hid & _).
  { rewrite Hm. left. reflexivity. }
  rewrite Hempty, lookup_empty in Hid. discriminate.
Qed.

Lemma book_inv_live ob :
  book_inv ob -> order_price_map_ ob <> ∅ -> price_count_map_ ob <> [].
Proof.
  intros Hinv Hlive Hm. apply map_choose in Hlive as (id & p & Hid).
  destruct (book_inv_order ob id p Hinv Hid) as (c & Hc & _).
  rewrite Hm in Hc. discriminate.
Qed.

Lemma max_price_erase_inv order_id ob :
  book_inv ob -> book_inv (erase_order order_id ob) ->
  order_price_map_ (erase_order order_id ob) <> ∅ ->
  d_lt (max_price ob) (max_price (erase_order order_id ob)) = false.
Proof.
  intros Hinv Hinv' Hlive'.
  destruct (proj2 (max_price_spec _ Hinv') Hlive')
    as (_ & _ & (id & p & Hid & Hp) & _).
  assert (Hid0 : order_price_map_ ob !! id = Some p).
  { unfold erase_order in Hid.
    destruct (order_price_map_ ob !! order_id) eqn:Ho; [|exact Hid].
    cbn [order_price_map_] in Hid. apply lookup_delete_Some in Hid as [_ Hid].
    exact Hid. }
  assert (Hlive : order_price_map_ ob <> ∅).
  { intros E. rewrite E, lookup_empty in Hid0. discriminate. }
  destruct (proj2 (max_price_spec _ Hinv) Hlive) as (_ & _ & _ & Hmax).
  apply not_true_is_false. intros Hlt.
  assert (Hnum : number p) by (destruct Hinv as (_ & Hnum & _); eauto).
  rewrite equiv_sym in Hp.
  pose proof (lt_equiv_r _ p _ Hnum Hp Hlt) as Hlt'.
  rewrite (Hmax id p Hid0) in Hlt'. discriminate.
Qed.

End RunsMore.

(** X1: on every order book reached by insertions and erasures, the count
    that the price map holds for a price is the number of live orders at
    that price, and a price without live orders has no entry. *)
Theorem count_is_orders_at_price {D : Type} `{DoubleLaws D}
    (evs : list (event D)) (q : D) :
  Forall event_price_ok evs ->
  Z.of_nat (length evs) <= Int.max_int ->
  number q ->
  let ob := apply_events evs OrderBook_new in
  pm_find q (price_count_map_ ob)
  = count_opt (orders_at q (order_price_map_ ob)).
Proof.
  intros Hok Hlen Hq ob.
  destruct (book_inv_reached evs Hok Hlen) as (_ & _ & Hfind & _).
  apply Hfind. exact Hq.
Qed.

Lemma count_is_orders_at_price_witness :
  let ob := apply_events
    [Insert 1 (Scenario.price 10); Insert 2 (Scenario.price 12);
     Insert 3 (Scenario.price 10); Erase 2] OrderBook_new in
  pm_find (Scenario.price 10) (price_count_map_ ob)
  = count_opt (orders_at (Scenario.price 10) (order_price_map_ ob)).
Proof.
  apply (count_is_orders_at_price (D := spec_float)).
  - repeat constructor.
  - vm_compute. discriminate.
  - reflexivity.
Defined.

(** X2: on every order book reached by insertions and erasures, the keys
    of the price map are numbers in strictly ascending order, so that no
    two entries have equivalent keys. *)
Theorem price_map_sorted {D : Type} `{DoubleLaws D} (evs : list (event D)) :
  Forall event_price_ok evs ->
  Z.of_nat (length evs) <= Int.max_int ->
  let ob := apply_events evs OrderBook_new in
  StronglySorted (fun a b => d_lt a b = true) (pm_keys (price_count_map_ ob)) /\
  Forall number (pm_keys (price_count_map_ ob)).
Proof.
  intros Hok Hlen ob.
  destruct (book_inv_reached evs Hok Hlen) as (Hwf & _). exact Hwf.
Qed.

Lemma price_map_sorted_witness :
  let ob := apply_events
    [Insert 1 (Scenario.price 12); Insert 2 (Scenario.price 10);
     Insert 3 (Scenario.price 11)] OrderBook_new in
  StronglySorted (fun a b => d_lt a b = true) (pm_keys (price_count_map_ ob)) /\
  Forall number (pm_keys (price_count_map_ ob)).
Proof.
  apply (price_map_sorted (D := spec_float)).
  - repeat constructor.
  - vm_compute. discriminate.
Defined.

(** X3: on an order book reached by insertions and erasures, the insertion
    of an order under an id that is not live, followed by the erasure of
    that id, gives back the order book as it was, both maps. *)
Theorem insert_then_erase {D : Type} `{DoubleLaws D}
    (evs : list (event D)) (order_id : Z) (price : D) :
  Forall event_price_ok evs ->
  Z.of_nat (length evs) < Int.max_int ->
  number price ->
  let ob := apply_events evs OrderBook_new in
  order_price_map_ ob !! order_id = None ->
  erase_order order_id (insert_order order_id price ob) = ob.
Proof.
  intros Hok Hlen Hprice ob Hfresh.
  apply erase_after_insert_inv; try assumption.
  - apply book_inv_reached; [exact Hok|lia].
  - pose proof (reached_size evs) as Hsz. fold ob in Hsz. lia.
Qed.

Lemma insert_then_erase_witness :
  let ob := apply_events
    [Insert 1 (Scenario.price 10); Insert 2 (Scenario.price 12)] OrderBook_new in
  erase_order 3 (insert_order 3 (Scenario.price 10) ob) = ob.
Proof.
  apply (insert_then_erase (D := spec_float)).
  - repeat constructor.
  - vm_compute. reflexivity.
  - reflexivity.
  - reflexivity.
Defined.

(** X4: on an order book reached by insertions and erasures, after the
    insertion of an order under an id that is not live [max_price()] is the
    price of that order when the book had no live order or its greatest
    price was below it, and is the greatest price of before otherwise. *)
Theorem max_price_after_insert {D : Type} `{DoubleLaws D}
    (evs : list (event D)) (order_id : Z) (price : D) :
  Forall event_price_ok evs ->
  Z.of_nat (length evs) <= Int.max_int ->
  number price ->
  let ob := apply_events evs OrderBook_new in
  order_price_map_ ob !! order_id = None ->
  let ob' := insert_order order_id price ob in
  (order_price_map_ ob = ∅ -> max_price ob' = price) /\
  (order_price_map_ ob <> ∅ ->
   max_price ob' = if d_lt (max_price ob) price then price else max_price ob).
Proof.
  intros Hok Hlen Hprice ob Hfresh ob'. subst ob'.
  pose proof (book_inv_reached evs Hok Hlen) as Hinv. fold ob in Hinv.
  rewrite (max_price_insert_inv order_id price ob Hinv Hprice Hfresh).
  split.
  - intros Hempty. rewrite (book_inv_empty ob Hinv Hempty). reflexivity.
  - intros Hlive. pose proof (book_inv_live ob Hinv Hlive) as Hm.
    destruct (price_count_map_ ob); [contradiction|reflexivity].
Qed.

Lemma max_price_after_insert_witness :
  let ob := apply_events
    [Insert 1 (Scenario.price 10); Insert 2 (Scenario.price 12)] OrderBook_new in
  let ob' := insert_order 3 (Scenario.price 11) ob in
  (order_price_map_ ob = ∅ -> max_price ob' = Scenario.price 11) /\
  (order_price_map_ ob <> ∅ ->
   max_price ob' = if d_lt (max_price ob) (Scenario.price 11)
                   then Scenario.price 11 else max_price ob).
Proof.
  apply (max_price_after_insert (D := spec_float)).
  - repeat constructor.
  - vm_compute. discriminate.
  - reflexivity.
  - reflexivity.
Defined.

(** X5: on an order book reached by insertions and erasures, an erasure
    that leaves a live order does not raise [max_price()]. *)
Theorem max_price_after_erase {D : Type} `{DoubleLaws D}
    (evs : list (event D)) (order_id : Z) :
  Forall event_price_ok evs ->
  Z.of_nat (length evs) < Int.max_int ->
  let ob := apply_events evs OrderBook_new in
  let ob' := erase_order order_id ob in
  order_price_map_ ob' <> ∅ ->
  d_lt (max_price ob) (max_price ob') = false.
Proof.
  intros Hok Hlen ob ob' Hlive. subst ob'.
  apply max_price_erase_inv; [| |exact Hlive].
  - apply book_inv_reached; [exact Hok|lia].
  - change (erase_order order_id ob) with (apply_event ob (Erase order_id)).
    unfold ob. rewrite <- apply_events_snoc. apply book_inv_reached.
    + apply Forall_app. split; [exact Hok|]. repeat constructor.
    + rewrite length_app. cbn [length]. lia.
Qed.

Lemma max_price_after_erase_witness :
  let ob := apply_events
    [Insert 1 (Scenario.price 10); Insert 2 (Scenario.price 12)] OrderBook_new in
  d_lt (max_price ob) (max_price (erase_order 2 ob)) = false.
Proof.
  apply (max_price_after_erase (D := spec_float)).
  - repeat constructor.
  - vm_compute. reflexivity.
  - intros E. apply (f_equal (fun m => m !! 1)) in E.
    vm_compute in E. discriminate E.
Defined.

(** X6: an order book reached by insertions and erasures that has no live
    order is the empty order book of the constructor: the price map has no
    entry left. *)
Theorem empty_book_again {D : Type} `{DoubleLaws D} (evs : list (event D)) :
  Forall event_price_ok evs ->
  Z.of_nat (length evs) <= Int.max_int ->
  let ob := apply_events evs OrderBook_new in
  order_price_map_ ob = ∅ ->
  ob = OrderBook_new.
Proof.
  intros Hok Hlen ob Hempty.
  apply book_eq; cbn [OrderBook_new order_price_map_ price_count_map_];
    [exact Hempty|].
  apply book_inv_empty; [|exact Hempty].
  apply book_inv_reached; assumption.
Qed.

Lemma empty_book_again_witness :
  apply_events
    [Insert 1 (Scenario.price 10); Insert 2 (Scenario.price 10);
     Erase 1; Erase 2] OrderBook_new
  = OrderBook_new.
Proof.
  apply (empty_book_again (D := spec_float)).
  - repeat constructor.
  - vm_compute. discriminate.
  - vm_compute. reflexivity.
Defined.

(** X7: the average depends on the times only through their differences:
    moving every time of a run of calls of [next_price] by the same amount
    leaves the average, the total time and the last price as they are. *)
Theorem time_origin_irrelevant {D : Type} `{DoubleLaws D}
    (c : Z) (obs : list (Z * D)) :
  let t := observe_all obs TWAP_new in
  let t' := observe_all (shift_times c obs) TWAP_new in
  avg_price t' = avg_price t /\ total_time_ t' = total_time_ t /\
  last_price_ t' = last_price_ t.
Proof.
  intros t t'.
  destruct (observe_all_shifted c obs _ _ (shifted_new c)) as (Hl & Ha & Ht & _).
  auto.
Qed.

Lemma time_origin_irrelevant_witness :
  let obs := [(0, Scenario.price 10); (10, Scenario.price 20); (30, Scenario.price 30)] in
  let t := observe_all obs TWAP_new in
  let t' := observe_all (shift_times 1000 obs) TWAP_new in
  avg_price t' = avg_price t /\ total_time_ t' = total_time_ t /\
  last_price_ t' = last_price_ t.
Proof.
  exact (time_origin_irrelevant (D := spec_float) 1000
           [(0, Scenario.price 10); (10, Scenario.price 20); (30, Scenario.price 30)]).
Defined.

(** X8: on binary64 an [int] converted to [double] and back is the same
    [int]: the assignments of [total_time_ + add_time] to [new_total_time]
    and of [new_total_time] to [total_time_] lose nothing. *)
Theorem binary64_int_round_trip (z : Z) :
  Int.in_range z -> Binary64.to_int (Binary64.of_int z) = z.
Proof. apply Binary64Conv.to_int_of_int. Qed.

Lemma binary64_int_round_trip_witness :
  Binary64.to_int (Binary64.of_int (- 2 ^ 31)) = - 2 ^ 31.
Proof.
  apply (binary64_int_round_trip (- 2 ^ 31)).
  unfold Int.in_range, Int.min_int, Int.max_int. lia.
Defined.

(** X9: for every run of calls of [next_price] on a new [TWAP] whose times
    do not decrease and lie no further apart than the greatest [int], on
    machine doubles as in exact arithmetic, the total time is the sum of
    the lengths of the intervals whose starting price is not NaN, and it is
    not negative. *)
Theorem total_time_is_counted_time {D : Type} `{DoubleLaws D} `{!DoubleConv D}
    (obs : list (Z * D)) :
  Sorted Z.le (map fst obs) ->
  (forall a b, In a obs -> In b obs -> fst b - fst a <= Int.max_int) ->
  let t := observe_all obs TWAP_new in
  total_time_ t = counted_time obs /\ 0 <= total_time_ t.
Proof. apply counted_from_new. Qed.

Lemma total_time_is_counted_time_witness :
  let obs := [(0, Scenario.price 10); (10, Scenario.undefined);
              (20, Scenario.price 20); (50, Scenario.price 30)] in
  let t := observe_all obs TWAP_new in
  total_time_ t = counted_time obs /\ 0 <= total_time_ t.
Proof.
  intros obs. apply (total_time_is_counted_time (D := spec_float) obs).
  - repeat constructor; vm_compute; discriminate.
  - intros a b Ha Hb. simpl in Ha, Hb.
    repeat match goal with H : _ \/ _ |- _ => destruct H end;
      subst; try contradiction; vm_compute; discriminate.
Defined.

(** X11: the loop of [main] passes over the lines on which an extraction
    fails: the run over a file is the run over its complete lines. *)
Theorem main_skips_incomplete_lines {D : Type} `{DoubleOps D}
    (lines : list (line D)) :
  main_loop lines = main_loop (List.filter complete lines).
Proof. unfold main_loop. apply main_loop_filter_from. Qed.

(** X12: the order book that the loop of [main] reaches is the one that the
    events of the lines give, applied in order to the empty book: [I] with
    a price inserts, [E] erases, every other line leaves the book as it
    is. *)
Theorem main_book_is_event_run {D : Type} `{DoubleOps D}
    (lines : list (line D)) :
  order_book (main_loop lines)
  = apply_events (events_of_lines lines) OrderBook_new.
Proof. unfold main_loop. apply (main_book_from lines main_start). Qed.

(** X13: the loop of [main] never prints NaN, and it prints at most one
    value less than there are complete lines: the first complete line
    prints nothing. *)
Theorem main_prints_numbers {D : Type} `{DoubleLaws D}
    (lines : list (line D)) :
  Forall (fun p => d_isnan p = false) (printed (main_loop lines)) /\
  (length (printed (main_loop lines))
   <= pred (length (List.filter complete lines)))%nat.
Proof.
  split.
  - unfold main_loop.
    assert (Hstart : Forall (fun p => d_isnan p = false)
                       (printed (main_start (D := D)))) by constructor.
    revert Hstart. generalize (main_start (D := D)).
    induction lines as [|l lines IH]; intros st Hst; [exact Hst|].
    cbn [fold_left]. apply IH, process_printed, Hst.
  - apply (printed_bound_from lines main_start O).
    + cbn. lia.
    + intros _. apply silent_start.
Qed.

Lemma main_prints_numbers_witness :
  let lines :=
    [mkLine (Some 0) (Some "I"%string) (Some 1) (Some (Scenario.price 10));
     mkLine (Some 10) (Some "E"%string) (Some 1) None] in
  Forall (fun p => d_isnan p = false) (printed (main_loop lines)) /\
  (length (printed (main_loop lines))
   <= pred (length (List.filter complete lines)))%nat.
Proof.
  exact (main_prints_numbers (D := spec_float)
    [mkLine (Some 0) (Some "I"%string) (Some 1) (Some (Scenario.price 10));
     mkLine (Some 10) (Some "E"%string) (Some 1) None]).
Defined.

(** X14: the loop of [main] prints nothing up to and including the first
    line that inserts an order: as long as no order has been inserted the
    book is empty and the average has nothing but NaN to record. *)
Theorem main_silent_until_after_first_insert {D : Type} `{DoubleLaws D}
    (before : list (line D)) (l : line D) :
  Forall (fun l' => inserts l' = false) before ->
  printed (main_loop (before ++ [l])) = [].
Proof.
  intros Hbefore. unfold main_loop. rewrite fold_left_app. cbn [fold_left].
  assert (Hstart : idle (main_start (D := D))).
  { split; [reflexivity|]. split; [apply silent_start|reflexivity]. }
  destruct (main_idle before main_start Hstart Hbefore) as (_ & Hsilent & Hprinted).
  rewrite (process_silent _ l Hsilent). exact Hprinted.
Qed.

Lemma main_silent_until_after_first_insert_witness :
  printed (main_loop
    ([mkLine (Some 0) (Some "E"%string) (Some 7) None;
      mkLine (Some 5) None None None]
     ++ [mkLine (Some 10) (Some "I"%string) (Some 1) (Some (Scenario.price 10))]))
  = [].
Proof.
  apply (main_silent_until_after_first_insert (D := spec_float)).
  repeat constructor.
Defined.

(** ** The running average on the doubles of the program *)

Section Forward.
Context {D : Type} `{DoubleLaws D}.

(** A call whose time is not before the recorded one, by a difference that
    fits an [int], is recorded. *)
Lemma next_price_forward time price (t : TWAP D) :
  last_time_ t <= time ->
  time - last_time_ t <= Int.max_int ->
  last_time_ (next_price time price t) = time /\
  last_price_ (next_price time price t) = price.
Proof.
  intros Hle Hfit.
  assert (Hd : Int.sub time (last_time_ t) = time - last_time_ t).
  { apply IntFacts.sub_exact.
    unfold Int.in_range, Int.min_int, Int.max_int in *. lia. }
  unfold next_price. rewrite Hd.
  destruct (d_isnan (last_price_ t)); cbn [negb]; [auto|].
  destruct (Z.ltb_spec (time - last_time_ t) 0); [lia|].
  destruct (0 <? total_time_ t); auto.
Qed.

Lemma last_recorded (pre : list (Z * D)) : forall (t : TWAP D) b a,
  Sorted Z.le (last_time_ t :: map fst (pre ++ [a])) ->
  b <= last_time_ t ->
  Forall (fun o => fst o - b <= Int.max_int) (pre ++ [a]) ->
  let t' := observe_all (pre ++ [a]) t in
  last_time_ t' = fst a /\ last_price_ t' = snd a.
Proof.
  induction pre as [|[t1 p1] pre IH]; intros t b a Hsorted Hb Hspan.
  - cbn [app map fst] in *. apply Sorted_inv in Hsorted as [_ Hhd].
    apply HdRel_inv in Hhd. apply Forall_cons_iff in Hspan as [Hfit _].
    destruct a as [ta pa]. cbn [fst snd] in *.
    apply next_price_forward; lia.
  - cbn [app map fst] in Hsorted, Hspan.
    apply Sorted_inv in Hsorted as [Hsorted Hhd]. apply HdRel_inv in Hhd.
    apply Forall_cons_iff in Hspan as [Hfit Hspan]. cbn [fst] in Hfit.
    destruct (next_price_forward t1 p1 t Hhd ltac:(lia)) as [Htime Hprice].
    change (observe_all (((t1, p1) :: pre) ++ [a]) t)
      with (observe_all (pre ++ [a]) (next_price t1 p1 t)).
    apply (IH (next_price t1 p1 t) b a); rewrite ?Htime; try assumption; lia.
Qed.

Lemma last_recorded_from_new (pre : list (Z * D)) a :
  Sorted Z.le (map fst (pre ++ [a])) ->
  (forall x y, In x (pre ++ [a]) -> In y (pre ++ [a]) ->
     fst y - fst x <= Int.max_int) ->
  let t := observe_all (pre ++ [a]) TWAP_new in
  last_time_ t = fst a /\ last_price_ t = snd a.
Proof.
  intros Hsorted Hspan. destruct pre as [|[t1 p1] pre].
  - cbn [app observe_all fold_left]. destruct a as [ta pa]. cbn [fst snd].
    rewrite next_price_undefined_last by (cbn; apply d_isnan_nan).
    cbn. auto.
  - change (observe_all (((t1, p1) :: pre) ++ [a]) TWAP_new)
      with (observe_all (pre ++ [a]) (next_price t1 p1 TWAP_new)).
    rewrite next_price_undefined_last by (cbn; apply d_isnan_nan).
    apply (last_recorded pre _ t1 a); cbn [last_time_].
    + exact Hsorted.
    + lia.
    + apply List.Forall_forall. intros o Ho.
      apply (Hspan (t1, p1) o); [left; reflexivity|right; exact Ho].
Qed.

Lemma sorted_prefix (pre : list (Z * D)) a b :
  Sorted Z.le (map fst (pre ++ [a; b])) ->
  Sorted Z.le (map fst (pre ++ [a])) /\ fst a <= fst b.
Proof.
  induction pre as [|x pre IH]; cbn [app map]; intros Hsorted.
  - apply Sorted_inv in Hsorted as [_ Hhd]. apply HdRel_inv in Hhd.
    split; [repeat constructor|exact Hhd].
  - apply Sorted_inv in Hsorted as [Hsorted Hhd].
    destruct (IH Hsorted) as [Hpre Hab]. split; [|exact Hab].
    constructor; [exact Hpre|].
    destruct pre; cbn [app map] in *; apply HdRel_inv in Hhd;
      constructor; exact Hhd.
Qed.

End Forward.

Section FirstInterval.
Context {D : Type} `{DoubleLaws D} `{!DoubleConv D}.

Lemma first_weight_exact (pre : list (Z * D)) t0 p0 t1 p1 :
  let obs := pre ++ [(t0, p0); (t1, p1)] in
  Sorted Z.le (map fst obs) ->
  (forall a b, In a obs -> In b obs -> fst b - fst a <= Int.max_int) ->
  counted_time (pre ++ [(t0, p0)]) = 0 ->
  d_isnan p0 = false ->
  avg_price (observe_all obs TWAP_new) = p0.
Proof.
  intros obs Hsorted Hspan Hzero Hp0. subst obs.
  destruct (sorted_prefix pre (t0, p0) (t1, p1) Hsorted) as [Hpre Hle].
  cbn [fst] in Hle.
  assert (Hspan' : forall a b, In a (pre ++ [(t0, p0)]) -> In b (pre ++ [(t0, p0)]) ->
            fst b - fst a <= Int.max_int).
  { intros a b Ha Hb. apply Hspan; rewrite in_app_iff in *; cbn [In] in *; tauto. }
  destruct (counted_from_new _ Hpre Hspan') as [Htot _].
  destruct (last_recorded_from_new pre (t0, p0) Hpre Hspan') as [Htime Hprice].
  cbn [fst snd] in Htime, Hprice. rewrite Hzero in Htot.
  replace (pre ++ [(t0, p0); (t1, p1)]) with ((pre ++ [(t0, p0)]) ++ [(t1, p1)])
    by (rewrite <- app_assoc; reflexivity).
  unfold observe_all at 1. rewrite fold_left_app. cbn [fold_left fst snd].
  fold (observe_all (pre ++ [(t0, p0)]) (TWAP_new (D := D))).
  set (s := observe_all (pre ++ [(t0, p0)]) TWAP_new) in *.
  assert (Hfit : t1 - t0 <= Int.max_int).
  { apply (Hspan (t0, p0) (t1, p1)); rewrite in_app_iff; cbn [In]; tauto. }
  assert (Hd : Int.sub t1 (last_time_ s) = t1 - t0).
  { rewrite Htime. apply IntFacts.sub_exact.
    unfold Int.in_range, Int.min_int, Int.max_int in *. lia. }
  rewrite next_price_first_interval; rewrite ?Hprice, ?Hd, ?Htot; try lia;
    try assumption.
  reflexivity.
Qed.

End FirstInterval.


